(** * GeneVAE, DAG_model.py: the losses, the structural layers and the
      augmented-Lagrangian training schedule

    The program computes on float32 tensors.  The main embedding idealises
    the floats as the real numbers of the Standard Library: a tensor entry
    is an [R], arithmetic is exact, and a value that TensorFlow would
    report as non-finite (an infinity or a NaN, from a logarithm, a power,
    a division or a log-gamma outside its domain) is the [None] of
    [option R].  It settles which computation the code performs.  A
    property of the computed values that is stated "over exact arithmetic"
    holds of these formulas only; the module [F32] embeds the same code in
    binary32 arithmetic and shows, on concrete inputs, where rounding,
    overflow and underflow take such a property away from the program. *)

From Stdlib Require Import Reals Lra Lia List ListDec Arith Bool String.
From Stdlib Require Import ClassicalEpsilon.
Import ListNotations.

Open Scope R_scope.

(** ** Tensors *)

Module Tensor.

(** A rank-2 tensor: its shape and its entries.  Entries outside the shape
    carry no meaning; tensors are compared with [teq], inside the shape. *)
Record Tensor2 : Type := mkT2 {
  rows : nat;
  cols : nat;
  entry : nat -> nat -> R
}.

(** A rank-1 tensor. *)
Record Tensor1 : Type := mkT1 {
  len : nat;
  item : nat -> R
}.

Definition teq (X Y : Tensor2) : Prop :=
  rows X = rows Y /\ cols X = cols Y /\
  forall i j, (i < rows X)%nat -> (j < cols X)%nat -> entry X i j = entry Y i j.

Definition veq (u v : Tensor1) : Prop :=
  len u = len v /\ forall i, (i < len u)%nat -> item u i = item v i.

(** Sum of [f 0 .. f (n-1)], the reduction behind matmul, trace and mean. *)
Fixpoint rsum (n : nat) (f : nat -> R) : R :=
  match n with
  | O => 0
  | S k => rsum k f + f k
  end.

(** [tf.eye(n)] *)
Definition tf_eye (n : nat) : Tensor2 :=
  mkT2 n n (fun i j => if Nat.eqb i j then 1 else 0).

(** [tf.zeros], the 'zeros' initializer. *)
Definition tf_zeros (n m : nat) : Tensor2 := mkT2 n m (fun _ _ => 0).

(** [tf.ones(shape)] *)
Definition tf_ones (n m : nat) : Tensor2 := mkT2 n m (fun _ _ => 1).

(** [tf.multiply(X, Y)], elementwise. *)
Definition tf_multiply (X Y : Tensor2) : Tensor2 :=
  mkT2 (rows X) (cols X) (fun i j => entry X i j * entry Y i j).

(** [a * X] for a Python scalar [a]. *)
Definition scale (a : R) (X : Tensor2) : Tensor2 :=
  mkT2 (rows X) (cols X) (fun i j => a * entry X i j).

(** [X + Y] and [X - Y], elementwise. *)
Definition tadd (X Y : Tensor2) : Tensor2 :=
  mkT2 (rows X) (cols X) (fun i j => entry X i j + entry Y i j).

Definition tsub (X Y : Tensor2) : Tensor2 :=
  mkT2 (rows X) (cols X) (fun i j => entry X i j - entry Y i j).

(** [K.transpose(X)] *)
Definition K_transpose (X : Tensor2) : Tensor2 :=
  mkT2 (cols X) (rows X) (fun i j => entry X j i).

(** [tf.matmul(X, Y)]; the contraction runs over the columns of [X]. *)
Definition tf_matmul (X Y : Tensor2) : Tensor2 :=
  mkT2 (rows X) (cols Y)
       (fun i j => rsum (cols X) (fun k => entry X i k * entry Y k j)).

(** [tf.linalg.trace(X)] *)
Definition tf_linalg_trace (X : Tensor2) : R :=
  rsum (Nat.min (rows X) (cols X)) (fun i => entry X i i).

(** [K.mean(X, axis=-1)]: the mean over the last axis, one value per row. *)
Definition K_mean_last (X : Tensor2) : Tensor1 :=
  mkT1 (rows X) (fun i => rsum (cols X) (fun j => entry X i j) / INR (cols X)).

(** [a * v] and [- v] on rank-1 tensors. *)
Definition vscale (a : R) (v : Tensor1) : Tensor1 :=
  mkT1 (len v) (fun i => a * item v i).

Definition vneg (v : Tensor1) : Tensor1 :=
  mkT1 (len v) (fun i => - item v i).

(** A literal matrix, for examples: row [i], column [j] of a list of rows. *)
Definition of_rows (n m : nat) (l : list (list R)) : Tensor2 :=
  mkT2 n m (fun i j => nth j (nth i l []) 0).

End Tensor.

Import Tensor.

(** ** Custom losses: the acyclicity measure *)

(** [DAG_constraint(A, alpha)]: [n_nodes - 1] squarings of
    [ident + alpha * tf.multiply(A, A)], then trace minus [n_nodes]. *)
Definition DAG_constraint (A : Tensor2) (alpha : R) : R :=
  let n_nodes := rows A in
  let ident := tf_eye n_nodes in
  let x := tadd ident (scale alpha (tf_multiply A A)) in
  let x := Nat.iter (n_nodes - 1) (fun x => tf_matmul x x) x in
  let h_A := tf_linalg_trace x - INR n_nodes in
  h_A.

(** [LagrangianLoss(lambda_A, penalty_A, A, alpha)]: the scalar
    [lambda_A * h_A + 0.5 * penalty_A * h_A^2] broadcast over [n_nodes]. *)
Definition LagrangianLoss (lambda_A penalty_A : R) (A : Tensor2) (alpha : R)
  : Tensor1 :=
  let n_nodes := rows A in
  let h_A := DAG_constraint A alpha in
  let output := lambda_A * h_A + 0.5 * penalty_A * (h_A * h_A) in
  mkT1 n_nodes (fun _ => output * 1).

(** ** Non-finite values *)

Module Fin.

(** A float that is finite ([Some x]) or not ([None]: an infinity or a
    NaN).  Operations are strict: a non-finite operand gives a non-finite
    result (the few IEEE exceptions, such as [pow(NaN, 0) = 1], are not
    tracked). *)
Definition fin : Type := option R.

Definition finite (x : R) : fin := Some x.

Definition lift2 (op : R -> R -> R) (a b : fin) : fin :=
  match a, b with
  | Some x, Some y => Some (op x y)
  | _, _ => None
  end.

Definition fbind (a : fin) (k : R -> fin) : fin :=
  match a with
  | Some x => k x
  | None => None
  end.

Definition fadd : fin -> fin -> fin := lift2 Rplus.
Definition fsub : fin -> fin -> fin := lift2 Rminus.
Definition fmul : fin -> fin -> fin := lift2 Rmult.

(** Division: a zero divisor gives an infinity or a NaN. *)
Definition fdiv (a b : fin) : fin :=
  fbind a (fun x => fbind b (fun y =>
    if Req_dec_T y 0 then None else Some (x / y))).

(** [tf.math.log] / [tf.log]: minus infinity at 0, NaN below. *)
Definition tf_log (a : fin) : fin :=
  fbind a (fun x => if Rlt_dec 0 x then Some (ln x) else None).

Definition is_int (x : R) : Prop := IZR (Int_part x) = x.

Definition is_int_dec (x : R) : {is_int x} + {~ is_int x} :=
  Req_dec_T (IZR (Int_part x)) x.

(** [tf.math.pow] / [tf.pow]: [exp (e * ln b)] on a positive base; at base
    0 the value 1 for exponent 0, 0 for a positive exponent and an
    infinity for a negative one; on a negative base the integer power, and
    NaN when the exponent is not an integer. *)
Definition tf_pow (a b : fin) : fin :=
  fbind a (fun x => fbind b (fun e =>
    if Rlt_dec 0 x then Some (Rpower x e)
    else if Req_dec_T x 0 then
      (if Req_dec_T e 0 then Some 1
       else if Rlt_dec 0 e then Some 0 else None)
    else
      (if is_int_dec e then Some (powerRZ x (Int_part e)) else None))).

(** [tf.math.lgamma] / [tf.lgamma], over a log-gamma function [lgamma]
    given on the reals: the poles are the integers [0, -1, -2, ...]. *)
Definition tf_lgamma (lgamma : R -> R) (a : fin) : fin :=
  fbind a (fun x =>
    if Rle_dec x 0 then (if is_int_dec x then None else Some (lgamma x))
    else Some (lgamma x)).

(** [tf.where(cond, a, b)] at one element. *)
Definition tf_where (cond : bool) (a b : fin) : fin := if cond then a else b.

(** [tf.less(x, y)] at one element. *)
Definition tf_less (x y : R) : bool := if Rlt_dec x y then true else false.

End Fin.

Import Fin.

Coercion finite : R >-> fin.

Declare Scope fin_scope.
Delimit Scope fin_scope with fin.
Bind Scope fin_scope with fin.
Notation "a + b" := (fadd a b) : fin_scope.
Notation "a - b" := (fsub a b) : fin_scope.
Notation "a * b" := (fmul a b) : fin_scope.
Notation "a / b" := (fdiv a b) : fin_scope.

(** ** Custom losses: the likelihoods, at one element of the tensors *)

Section Likelihoods.

(** The log-gamma function on the reals (not part of the Standard Library). *)
Variable lgamma : R -> R.

(** The module-level switch [tf2_flag], set from the TensorFlow version. *)
Variable tf2_flag : bool.

(** [NB_loglikelihood(y, params, eps)] with [params = [mu, r]]. *)
Definition NB_loglikelihood (y : R) (params : R * R) (eps : R) : fin :=
  let mu := fst params in
  let r := snd params in
  let '(l1, l2) :=
    if tf2_flag then
      ((tf_lgamma lgamma (y + r + eps)%R - tf_lgamma lgamma (r + eps)%R
        - tf_lgamma lgamma (y + 1)%R)%fin,
       (y * tf_log ((mu + eps)%R / (r + mu + eps)%R)
        + r * tf_log ((r + eps)%R / (r + mu + eps)%R))%fin)
    else
      ((tf_lgamma lgamma (y + r + eps)%R - tf_lgamma lgamma (r + eps)%R
        - tf_lgamma lgamma (y + 1)%R)%fin,
       (y * tf_log ((mu + eps)%R / (r + mu + eps)%R)
        + r * tf_log ((r + eps)%R / (r + mu + eps)%R))%fin) in
  let log_likelihood := (l1 + l2)%fin in
  log_likelihood.

(** [ZINB_loglikelihood(y, params, eps)] with [params = [mu, r, pi]];
    [params[:-1]] is [[mu, r]]. *)
Definition ZINB_loglikelihood (y : R) (params : R * R * R) (eps : R) : fin :=
  let mu := fst (fst params) in
  let r := snd (fst params) in
  let pi := snd params in
  let nb_log_likelihood := NB_loglikelihood y (fst params) eps in
  let '(case_zero, case_nonzero) :=
    if tf2_flag then
      (tf_log ((eps + pi)%R
               + (1 - pi)%R * tf_pow (r / (r + mu + eps)%R) r)%fin,
       (tf_log (1 - pi + eps)%R + nb_log_likelihood)%fin)
    else
      (tf_log (pi + (1 - pi)%R * tf_pow (r / (r + mu)%R) r)%fin,
       (tf_log (1 - pi)%R + nb_log_likelihood)%fin) in
  let zinb_log_likelihood :=
    tf_where (tf_less y 1e-8) case_zero case_nonzero in
  zinb_log_likelihood.

End Likelihoods.

(** ** Elementwise backend operations used by the layers *)

(** [K.exp(X)], [K.square(X)], [- X] and [a - X]. *)
Definition K_exp (X : Tensor2) : Tensor2 :=
  mkT2 (rows X) (cols X) (fun i j => exp (entry X i j)).

Definition K_square (X : Tensor2) : Tensor2 :=
  mkT2 (rows X) (cols X) (fun i j => entry X i j * entry X i j).

Definition tneg (X : Tensor2) : Tensor2 :=
  mkT2 (rows X) (cols X) (fun i j => - entry X i j).

Definition scalar_minus (a : R) (X : Tensor2) : Tensor2 :=
  mkT2 (rows X) (cols X) (fun i j => a - entry X i j).

(** ** Keras: errors, weights, and [call] in the register of added losses *)

Module Keras.

(** The errors the modelled code can raise. *)
Inductive exn : Type :=
| IndexError            (* list index out of range *)
| ValueError            (* set_weights with a list of the wrong length *)
| InvalidArgumentError. (* tf.linalg.inv: input is not invertible *)

Inductive result (X : Type) : Type :=
| Ok (x : X)
| Raise (e : exn).

Arguments Ok {X} x.
Arguments Raise {X} e.

Definition rbind {X Y : Type} (c : result X) (k : X -> result Y) : result Y :=
  match c with
  | Ok x => k x
  | Raise e => Raise e
  end.

(** A layer weight made by [add_weight(name, shape, initializer, trainable)];
    [value] is what the initializer produced or what was last assigned. *)
Record Weight (V : Type) : Type := add_weight {
  name : string;
  value : V;
  trainable : bool
}.

Arguments add_weight {V} name value trainable.
Arguments name {V} w.
Arguments value {V} w.
Arguments trainable {V} w.

(** A computation that may call [add_loss]: it threads the list of the
    losses registered so far. *)
Definition Call (X : Type) : Type := list Tensor1 -> X * list Tensor1.

Definition ret {X : Type} (x : X) : Call X := fun losses => (x, losses).

Definition bind {X Y : Type} (c : Call X) (k : X -> Call Y) : Call Y :=
  fun losses => let '(x, losses') := c losses in k x losses'.

(** [self.add_loss(loss)] *)
Definition add_loss (loss : Tensor1) : Call unit :=
  fun losses => (tt, (losses ++ [loss])%list).

End Keras.

Import Keras.

Notation "c1 ;; c2" := (bind c1 (fun _ => c2))
  (at level 61, right associativity).
Notation "'do' x <- c ; k" := (rbind c (fun x => k))
  (at level 10, x name, c at level 100, k at level 200).

(** *** ReconstructionLossLayer *)

Module ReconstructionLossLayer.

Record t : Type := {
  rl : Tensor2 -> list Tensor2 -> R -> Tensor2;   (* rl_func *)
  eps : R
}.

(** [call(inputs)] with [inputs = [y, params]]. *)
Definition call (self : t) (inputs : Tensor2 * list Tensor2)
  : Call (list Tensor2) :=
  let y := fst inputs in
  let params := snd inputs in
  let loss := vneg (K_mean_last (rl self y params (eps self))) in
  add_loss loss ;;
  ret (snd inputs).

End ReconstructionLossLayer.

(** *** KLDivergenceLayer *)

Module KLDivergenceLayer.

Record t : Type := {
  beta : R;       (* beta_vae *)
  mean : R;
  log_var : R
}.

(** [gaussian_kl(g1, g2)] *)
Definition gaussian_kl (g1 g2 : Tensor2 * Tensor2) : Tensor2 :=
  let '(mu_1, logvar_1) := g1 in
  let '(mu_2, logvar_2) := g2 in
  let kl :=
    tadd (scale (- 0.5) (tadd (scalar_minus 1 logvar_2) logvar_1))
         (tf_multiply (scale 0.5 (K_exp (tneg logvar_2)))
                      (tadd (K_exp logvar_1) (K_square (tsub mu_1 mu_2)))) in
  kl.

(** [create_reference(inputs)] *)
Definition create_reference (self : t)
  (inputs : Tensor2 * Tensor2 * Tensor2) : Tensor2 * Tensor2 :=
  let '(inputs0, _, _) := inputs in
  let ones := tf_ones (rows inputs0) (cols inputs0) in
  let mean_tensor := scale (mean self) ones in
  let log_var_tensor := scale (log_var self) ones in
  (mean_tensor, log_var_tensor).

(** [call(inputs)] with [inputs = [z_mean, z_log_var, z]]. *)
Definition call (self : t) (inputs : Tensor2 * Tensor2 * Tensor2)
  : Call Tensor2 :=
  let '(inputs0, inputs1, inputs2) := inputs in
  let reference := create_reference self inputs in
  let loss :=
    vscale (beta self)
           (K_mean_last (gaussian_kl (inputs0, inputs1) reference)) in
  add_loss loss ;;
  ret inputs2.

End KLDivergenceLayer.

(** *** ConstraintLossLayer *)

Module ConstraintLossLayer.

Record t : Type := {
  cl : R -> R -> Tensor2 -> R -> Tensor1;   (* cl_func *)
  alpha : R;
  lambda_A : Weight R;     (* shape (1) *)
  penalty_A : Weight R     (* shape (1) *)
}.

(** [__init__] followed by [build]: 'zeros' and 'ones', not trainable. *)
Definition build (cl_func : R -> R -> Tensor2 -> R -> Tensor1) (alpha : R) : t :=
  {| cl := cl_func;
     alpha := alpha;
     lambda_A := add_weight "lambda_A" 0 false;
     penalty_A := add_weight "penalty_A" 1 false |}.

(** [call(inputs)] with [inputs = [A, layers]]. *)
Definition call (self : t) (inputs : Tensor2 * list Tensor2)
  : Call (list Tensor2) :=
  let A := fst inputs in
  let layers := snd inputs in
  let loss :=
    cl self (value (lambda_A self)) (value (penalty_A self)) A (alpha self) in
  add_loss loss ;;
  ret layers.

(** [get_weights()]: the values, in the order the weights were added. *)
Definition get_weights (self : t) : list R :=
  [value (lambda_A self); value (penalty_A self)].

(** [set_weights(y)]: assigns the values in the same order. *)
Definition set_weights (self : t) (y : list R) : result t :=
  match y with
  | [a; b] =>
      Ok {| cl := cl self;
            alpha := alpha self;
            lambda_A := add_weight (name (lambda_A self)) a
                                   (trainable (lambda_A self));
            penalty_A := add_weight (name (penalty_A self)) b
                                    (trainable (penalty_A self)) |}
  | _ => Raise ValueError
  end.

End ConstraintLossLayer.

(** *** TransMultA and InvTransMultA *)

Module TransMultA.

Record t : Type := {
  n_nodes : nat;
  A : Weight Tensor2
}.

(** [__init__] followed by [build]: the weight 'adj', 'zeros', trainable. *)
Definition build (n_nodes : nat) : t :=
  {| n_nodes := n_nodes;
     A := add_weight "adj" (tf_zeros n_nodes n_nodes) true |}.

(** [call(x)] *)
Definition call (self : t) (x : list Tensor2) : list Tensor2 * Tensor2 :=
  let ident := tf_eye (rows (value (A self))) in
  let I_A := tsub ident (K_transpose (value (A self))) in
  let outputs := map (fun layer => tf_matmul I_A layer) x in
  (outputs, value (A self)).

End TransMultA.

(** [N] is the inverse of the square matrix [M]. *)
Definition is_inverse (M N : Tensor2) : Prop :=
  rows M = cols M /\ rows N = rows M /\ cols N = rows M /\
  teq (tf_matmul N M) (tf_eye (rows M)) /\
  teq (tf_matmul M N) (tf_eye (rows M)).

(** [tf.linalg.inv(M)]: the inverse of [M], an error when there is none. *)
Definition tf_linalg_inv (M : Tensor2) : result Tensor2 :=
  match excluded_middle_informative (exists N, is_inverse M N) with
  | left H => Ok (proj1_sig (constructive_indefinite_description _ H))
  | right _ => Raise InvalidArgumentError
  end.

Module InvTransMultA.

(** [call(x)]: [x[:-1]] are the layers, [x[-1]] is [A]. *)
Definition call (x : list Tensor2) : result (list Tensor2) :=
  let layers := removelast x in
  do A <- match nth_error x (List.length x - 1) with
          | Some A => Ok A
          | None => Raise IndexError
          end;
  let ident := tf_eye (rows A) in
  let I_A := tsub ident (K_transpose A) in
  do inv_I_A <- tf_linalg_inv I_A;
  let outputs := map (fun layer => tf_matmul inv_I_A layer) layers in
  Ok outputs.

End InvTransMultA.

(** ** The training loop *)

Section TrainingLoop.

(** The weights of every layer but the last, with the optimizer's state. *)
Variable Body : Type.

(** The autoencoder as the loop sees it: [get_layer(index=-1)] is the
    ConstraintLossLayer. *)
Record Autoencoder : Type := {
  body : Body;
  last_layer : ConstraintLossLayer.t
}.

(** What one [fit] call (5 epochs of Adam on the full batch) computes: the
    new state of the other layers, and the value it would give a scalar
    weight of the last layer. *)
Variable optimizer_body : Autoencoder -> Body.
Variable optimizer_scalar : Autoencoder -> Weight R -> R.

(** The optimizer assigns only the weights that are trainable. *)
Definition apply_gradients (m : Autoencoder) (w : Weight R) : Weight R :=
  if trainable w
  then add_weight (name w) (optimizer_scalar m w) (trainable w)
  else w.

(** [autoencoder.fit(fit_x, fit_y, epochs=5, ...)] *)
Definition fit (m : Autoencoder) : Autoencoder :=
  let x := last_layer m in
  {| body := optimizer_body m;
     last_layer :=
       {| ConstraintLossLayer.cl := ConstraintLossLayer.cl x;
          ConstraintLossLayer.alpha := ConstraintLossLayer.alpha x;
          ConstraintLossLayer.lambda_A :=
            apply_gradients m (ConstraintLossLayer.lambda_A x);
          ConstraintLossLayer.penalty_A :=
            apply_gradients m (ConstraintLossLayer.penalty_A x) |} |}.

(** [y[i]] and [y[i] = v] on a Python list. *)
Definition getitem (y : list R) (i : nat) : result R :=
  match nth_error y i with
  | Some v => Ok v
  | None => Raise IndexError
  end.

Definition setitem (y : list R) (i : nat) (v : R) : result (list R) :=
  if (i <? List.length y)%nat
  then Ok (firstn i y ++ v :: skipn (S i) y)%list
  else Raise IndexError.

(** The body of the [for] loop: one [fit], then the update of the two
    weights of the last layer. *)
Definition round (m : Autoencoder) : result Autoencoder :=
  let m := fit m in
  let x := last_layer m in
  let y := ConstraintLossLayer.get_weights x in
  do y0 <- getitem y 0;
  do y <- setitem y 0 (y0 + 1);
  do y1 <- getitem y 1;
  do y <- setitem y 1 (y1 + 1);
  do x <- ConstraintLossLayer.set_weights x y;
  Ok {| body := body m; last_layer := x |}.

(** The first [k] iterations of [for i in range(10)]. *)
Fixpoint rounds (k : nat) (m : Autoencoder) : result Autoencoder :=
  match k with
  | O => Ok m
  | S k' => do m' <- rounds k' m; round m'
  end.

Definition training_loop (m : Autoencoder) : result Autoencoder :=
  rounds 10 m.

(** The model before the loop: the last layer as [build] leaves it. *)
Definition initial (b : Body) (cl_func : R -> R -> Tensor2 -> R -> Tensor1)
  (alpha : R) : Autoencoder :=
  {| body := b; last_layer := ConstraintLossLayer.build cl_func alpha |}.

End TrainingLoop.

Arguments body {Body} a.
Arguments last_layer {Body} a.

(** ** Notions the properties are stated with *)

(** The [k]-th power of a square matrix, by [k] multiplications. *)
Fixpoint matrix_power (X : Tensor2) (k : nat) : Tensor2 :=
  match k with
  | O => tf_eye (rows X)
  | S k' => tf_matmul X (matrix_power X k')
  end.

Definition square (n : nat) (X : Tensor2) : Prop := rows X = n /\ cols X = n.

(** Zero on and below (above) the diagonal. *)
Definition strictly_upper (A : Tensor2) : Prop :=
  forall i j, (i < rows A)%nat -> (j < cols A)%nat -> (j <= i)%nat ->
              entry A i j = 0.

Definition strictly_lower (A : Tensor2) : Prop :=
  forall i j, (i < rows A)%nat -> (j < cols A)%nat -> (i <= j)%nat ->
              entry A i j = 0.

(** The graph of [A]: an edge from [i] to [j] where the entry is not 0. *)
Definition edge (A : Tensor2) (i j : nat) : Prop := entry A i j <> 0.

(** Edges from [i] through the vertices of [l], in order, and on to [j]. *)
Fixpoint walk (A : Tensor2) (i : nat) (l : list nat) (j : nat) : Prop :=
  match l with
  | [] => edge A i j
  | k :: l' => edge A i k /\ walk A k l' j
  end.

(** A directed cycle: distinct vertices of the graph, each with an edge to
    the next and the last with an edge to the first. *)
Definition directed_cycle (A : Tensor2) (c : list nat) : Prop :=
  match c with
  | [] => False
  | v :: l =>
      NoDup c /\ Forall (fun k => (k < rows A)%nat) c /\ walk A v l v
  end.

(** The KL term between two Gaussians, at one element. *)
Definition kl_term (mean_post logvar_post mean_ref logvar_ref : R) : R :=
  - 0.5 * (1 - logvar_ref + logvar_post)
  + 0.5 * exp (- logvar_ref)
    * (exp logvar_post + (mean_post - mean_ref) * (mean_post - mean_ref)).

(** The KL loss as the specification words it: [beta] times the terms
    summed over the latent dimensions and averaged over the batch. *)
Definition spec_kl_loss (beta mean_ref logvar_ref : R)
  (z_mean z_log_var : Tensor2) : R :=
  beta *
  (rsum (rows z_mean) (fun b =>
     rsum (cols z_mean) (fun d =>
       kl_term (entry z_mean b d) (entry z_log_var b d) mean_ref logvar_ref))
   / INR (rows z_mean)).

(** The structural-zero and the scaled negative-binomial branches of the
    zero-inflated likelihood, with the floor [e] where the code has one
    ([e = 0] is the formula without floors). *)
Definition zero_branch (e pi mu r : R) : fin :=
  tf_log ((e + pi)%R + (1 - pi)%R * tf_pow (r / (r + mu + e)%R) r)%fin.

Definition nonzero_branch (e pi : R) (nb : fin) : fin :=
  (tf_log (1 - pi + e)%R + nb)%fin.

(** ** Sample inputs *)

(** The two-cycle 0 -> 1 -> 0 on three nodes. *)
Definition two_cycle_3 : Tensor2 :=
  of_rows 3 3 [[0; 1; 0]; [1; 0; 0]; [0; 0; 0]].

(** The two-cycle on two nodes and a strictly upper-triangular matrix. *)
Definition two_cycle_2 : Tensor2 := of_rows 2 2 [[0; 3]; [-2; 0]].

Definition upper_3 : Tensor2 :=
  of_rows 3 3 [[0; 2; -1]; [0; 0; 5]; [0; 0; 0]].

(** ** Invariants of the squarings in [DAG_constraint] *)

(** Ones on the diagonal and zeros below it ([up = true]) or above it
    ([up = false]), inside the shape n x n. *)
Definition unit_triangular (up : bool) (n : nat) (X : Tensor2) : Prop :=
  forall i j, (i < n)%nat -> (j < n)%nat ->
    (i = j -> entry X i j = 1) /\
    ((if up then (j < i)%nat else (i < j)%nat) -> entry X i j = 0).

(** Non-negative entries and a diagonal that is at least 1. *)
Definition dominates_eye (n : nat) (X : Tensor2) : Prop :=
  (forall i j, (i < n)%nat -> (j < n)%nat -> 0 <= entry X i j) /\
  (forall i, (i < n)%nat -> 1 <= entry X i i).

(** A forward-transform layer on two nodes with the single edge 0 -> 1, the
    inverse of its [I - A^T], and one tensor with two rows. *)
Definition edge_layer_2 : TransMultA.t :=
  {| TransMultA.n_nodes := 2;
     TransMultA.A := add_weight "adj" (of_rows 2 2 [[0; 1]; [0; 0]]) true |}.

Definition edge_inverse_2 : Tensor2 := of_rows 2 2 [[1; 0]; [1; 1]].

Definition column_2 : Tensor2 := of_rows 2 1 [[5]; [7]].


(** The KL layer as the autoencoder builds it (beta_vae = 1, mean = 0,
    log_var = 0), and a batch of one sample with two latent dimensions. *)
Definition unit_kl_layer : KLDivergenceLayer.t :=
  {| KLDivergenceLayer.beta := 1;
     KLDivergenceLayer.mean := 0;
     KLDivergenceLayer.log_var := 0 |}.

Definition ones_1x2 : Tensor2 := of_rows 1 2 [[1; 1]].

Definition zeros_1x2 : Tensor2 := of_rows 1 2 [[0; 0]].


(** ** Invariant of the training loop *)

(** Both weights of the last layer are non-trainable. *)
Definition frozen {Body : Type} (m : Autoencoder Body) : Prop :=
  trainable (ConstraintLossLayer.lambda_A (last_layer m)) = false /\
  trainable (ConstraintLossLayer.penalty_A (last_layer m)) = false.

(** ** Further code of the model *)

(** [MeanSquaredError(y, mu, eps)]: [mse = (y-mu)**2], negated. *)
Definition MeanSquaredError (y mu : Tensor2) (eps : R) : Tensor2 :=
  let mse := K_square (tsub y mu) in
  tneg mse.

Module SampleLayer.

Record t : Type := {
  output_dim : nat
}.

(** [sampling(args)] with [args = [mean, log_var]]; [epsilon] is the
    tensor that [K.random_normal(shape=(batch, dim))] draws in the call. *)
Definition sampling (args : Tensor2 * Tensor2) (epsilon : Tensor2) : Tensor2 :=
  let '(mean, log_var) := args in
  tadd mean (tf_multiply (K_exp (scale 0.5 log_var)) epsilon).

(** [call(params)]: the Lambda layer applies [sampling]. *)
Definition call (self : t) (params : Tensor2 * Tensor2) (epsilon : Tensor2)
  : Tensor2 :=
  let sample := sampling params epsilon in
  sample.

End SampleLayer.

(** [tf.clip_by_value(x, lo, hi)], [tf.nn.softplus] and the 'sigmoid'
    activation, at one element. *)
Definition tf_clip_by_value (x lo hi : R) : R := Rmin (Rmax x lo) hi.

Definition tf_nn_softplus (a : R) : R := ln (1 + exp a).

Definition sigmoid (a : R) : R := 1 / (1 + exp (- a)).

(** The decoder's output activations [MeanAct] and [DispAct]. *)
Definition MeanAct (a : R) : R := tf_clip_by_value (exp a) 1e-5 1e6.

Definition DispAct (a : R) : R := tf_clip_by_value (tf_nn_softplus a) 1e-4 1e4.

(** The graph of [A] has no closed walk through nodes of the matrix. *)
Definition acyclic (A : Tensor2) : Prop :=
  forall v l, Forall (fun k => (k < rows A)%nat) (v :: l) -> ~ walk A v l v.


(** The partial sums [I + M + ... + M^(k-1)] of the geometric series of an
    n x n matrix, in Horner form. *)
Fixpoint geometric (n : nat) (M : Tensor2) (k : nat) : Tensor2 :=
  match k with
  | O => tf_zeros n n
  | S k' => tadd (tf_eye n) (tf_matmul M (geometric n M k'))
  end.


(** ** The assembled model *)

Module Dense.

(** A Keras [Dense] layer: its kernel and its bias. *)
Record t : Type := {
  kernel : Tensor2;
  bias : Tensor1
}.

(** [Dense(units, activation)(x)]: [activation(x . kernel + bias)]. *)
Definition call (activation : R -> R) (self : t) (x : Tensor2) : Tensor2 :=
  mkT2 (rows x) (cols (kernel self))
       (fun i j =>
          activation (entry (tf_matmul x (kernel self)) i j + item (bias self) j)).

End Dense.

(** The encoder: two linear projections of the counts, the shared forward
    transform, the sample; [epsilon] is the noise drawn by the sample
    layer.  The transform returns one tensor per tensor it is given. *)
Definition encoder (z_mean_layer z_log_var_layer : Dense.t)
  (trans : TransMultA.t) (sample : SampleLayer.t)
  (count_input epsilon : Tensor2)
  : result (Tensor2 * Tensor2 * Tensor2 * Tensor2) :=
  let z_mean := Dense.call (fun a => a) z_mean_layer count_input in
  let z_log_var := Dense.call (fun a => a) z_log_var_layer count_input in
  let '(outputs, A) := TransMultA.call trans [z_mean; z_log_var] in
  match outputs with
  | [z_mean; z_log_var] =>
      let z := SampleLayer.call sample (z_mean, z_log_var) epsilon in
      Ok (z_mean, z_log_var, z, A)
  | _ => Raise ValueError
  end.

(** The decoder: the inverse transform of the latent sample, then the
    three heads with their activations. *)
Definition decoder (mu_layer disp_layer pi_layer : Dense.t)
  (inputs : Tensor2 * Tensor2) : result (list Tensor2) :=
  let '(lat_input, A_input) := inputs in
  do outputs <- InvTransMultA.call [lat_input; A_input];
  match outputs with
  | [x] =>
      let mu := Dense.call MeanAct mu_layer x in
      let disp := Dense.call DispAct disp_layer x in
      let pi := Dense.call sigmoid pi_layer x in
      Ok [mu; disp; pi]
  | _ => Raise ValueError
  end.

(** The layers of the autoencoder. *)
Record AutoencoderLayers : Type := {
  z_mean_layer : Dense.t;
  z_log_var_layer : Dense.t;
  trans_layer : TransMultA.t;
  sample_layer : SampleLayer.t;
  kl_layer : KLDivergenceLayer.t;
  mu_layer : Dense.t;
  disp_layer : Dense.t;
  pi_layer : Dense.t;
  reconstruction_layer : ReconstructionLossLayer.t;
  constraint_layer : ConstraintLossLayer.t
}.

(** One forward pass of the autoencoder: encoder, KL layer, decoder,
    reconstruction-loss layer, constraint-loss layer; it returns the final
    outputs and the losses registered. *)
Definition autoencoder (m : AutoencoderLayers) (count_input epsilon : Tensor2)
  (losses : list Tensor1) : result (list Tensor2 * list Tensor1) :=
  do e <- encoder (z_mean_layer m) (z_log_var_layer m) (trans_layer m)
                  (sample_layer m) count_input epsilon;
  let '(z_mean, z_log_var, z, A) := e in
  let '(z, losses) :=
    KLDivergenceLayer.call (kl_layer m) (z_mean, z_log_var, z) losses in
  do AE_outputs <- decoder (mu_layer m) (disp_layer m) (pi_layer m) (z, A);
  let '(AE_outputs, losses) :=
    ReconstructionLossLayer.call (reconstruction_layer m)
      (count_input, AE_outputs) losses in
  Ok (ConstraintLossLayer.call (constraint_layer m) (A, AE_outputs) losses).


(** The layers of an autoencoder on two nodes as first built: the
    adjacency and the Lagrangian weights from [build], every Dense layer
    with a 1 x 1 kernel. *)
Definition dense_1 (w b : R) : Dense.t :=
  {| Dense.kernel := of_rows 1 1 [[w]]; Dense.bias := mkT1 1 (fun _ => b) |}.

Definition built_layers_2 : AutoencoderLayers :=
  {| z_mean_layer := dense_1 2 1;
     z_log_var_layer := dense_1 (-1) 0;
     trans_layer := TransMultA.build 2;
     sample_layer := {| SampleLayer.output_dim := 1 |};
     kl_layer := unit_kl_layer;
     mu_layer := dense_1 1 0;
     disp_layer := dense_1 3 (-2);
     pi_layer := dense_1 (-1) 1;
     reconstruction_layer :=
       {| ReconstructionLossLayer.rl :=
            fun y params e => MeanSquaredError y (hd y params) e;
          ReconstructionLossLayer.eps := 1e-10 |};
     constraint_layer := ConstraintLossLayer.build LagrangianLoss (1 / 2) |}.


(** ** The same code in binary32 arithmetic

    The definitions above compute with exact reals.  The program computes
    with float32 values, and this module embeds the arithmetic it uses:
    every sum and product is the exact result rounded to the nearest
    binary32 value, ties to even, with gradual underflow, overflow to an
    infinity, and NaN for [inf - inf] and [inf * 0].  It serves to show
    where a property of the exact formulas is lost by the program. *)

Module F32.

Local Open Scope Z_scope.

(** A binary32 value.  Every finite binary32 value is an integer multiple
    of 2^-149, the smallest positive subnormal: [Fin v] is [v * 2^-149].
    The sign of a zero is not kept. *)
Inductive f32 : Type :=
| Fin (v : Z)
| PInf
| NInf
| NaN.

(** Round to nearest, ties to even, of [a / 2^s] units of 2^-149, for
    [a >= 0] and [s >= 0], at 24 bits of precision: the result is again a
    number of units. *)
Definition round_mag (a s : Z) : Z :=
  if a =? 0 then 0
  else
    let L := Z.log2 a + 1 in            (* bit length of a *)
    let q := Z.max 0 (L - s - 24) in    (* the unit in the last place is 2^q units *)
    let t := s + q in                   (* bits of a that are dropped *)
    if t =? 0 then a
    else
      let Q := Z.shiftr a t in
      let r := a - Z.shiftl Q t in
      let half := Z.shiftl 1 (t - 1) in
      let Q' := if (half <? r) || ((r =? half) && Z.odd Q) then Q + 1 else Q in
      Z.shiftl Q' q.

(** The binary32 value nearest to [m / 2^s] units; 2^277 units is 2^128. *)
Definition round (m s : Z) : f32 :=
  let v := round_mag (Z.abs m) s in
  if 2 ^ 277 <=? v then (if 0 <? m then PInf else NInf)
  else Fin (Z.sgn m * v).


Definition zero : f32 := Fin 0.
Definition one : f32 := Fin (2 ^ 149).

(** The power of two [2^k], for [-149 <= k < 128]. *)
Definition pow2 (k : Z) : f32 := Fin (2 ^ (k + 149)).

(** [tf.cast(n, dtype='float32')] of an integer. *)
Definition of_Z (n : Z) : f32 := round (n * 2 ^ 149) 0.

Definition neg (x : f32) : f32 :=
  match x with
  | Fin v => Fin (- v)
  | PInf => NInf
  | NInf => PInf
  | NaN => NaN
  end.

Definition add (x y : f32) : f32 :=
  match x, y with
  | NaN, _ | _, NaN => NaN
  | PInf, NInf | NInf, PInf => NaN
  | PInf, _ | _, PInf => PInf
  | NInf, _ | _, NInf => NInf
  | Fin a, Fin b => round (a + b) 0
  end.

Definition sub (x y : f32) : f32 := add x (neg y).

Definition mul (x y : f32) : f32 :=
  match x, y with
  | NaN, _ | _, NaN => NaN
  | Fin a, Fin b => round (a * b) 149
  | Fin a, PInf | PInf, Fin a =>
      if a =? 0 then NaN else if 0 <? a then PInf else NInf
  | Fin a, NInf | NInf, Fin a =>
      if a =? 0 then NaN else if 0 <? a then NInf else PInf
  | PInf, PInf | NInf, NInf => PInf
  | PInf, NInf | NInf, PInf => NInf
  end.

(** The real number a finite value stands for. *)
Definition to_R (v : Z) : R := (IZR v / IZR (2 ^ 149))%R.

(** The nearest integer to a non-negative real, ties to even. *)
Definition nearest_even (y : R) : Z :=
  let f := Int_part y in
  let d := (y - IZR f)%R in
  if Rlt_dec d (1 / 2) then f
  else if Rlt_dec (1 / 2) d then f + 1
  else if Z.even f then f else f + 1.

(** The binary32 value nearest to a real number: an infinity from 2^128
    on, zero up to 2^-150, and in between the nearest multiple of the unit
    in the last place. *)
Definition of_R (x : R) : f32 :=
  if Rle_dec (IZR (2 ^ 128)) (Rabs x) then
    (if Rlt_dec 0 x then PInf else NInf)
  else if Rle_dec (Rabs x) (/ IZR (2 ^ 150)) then Fin 0
  else
    let y := (Rabs x * IZR (2 ^ 149))%R in          (* in units *)
    let q := Z.max 0 (Int_part (ln y / ln 2) - 23) in
    let v := nearest_even (y / IZR (2 ^ q)) * 2 ^ q in
    if 2 ^ 277 <=? v then (if Rlt_dec 0 x then PInf else NInf)
    else Fin (if Rlt_dec 0 x then v else - v).

(** [K.exp] at one element, as a correctly rounded exponential: the
    properties below use only that it overflows and underflows. *)
Definition exp (x : f32) : f32 :=
  match x with
  | Fin v => of_R (Rtrigo_def.exp (to_R v))
  | PInf => PInf
  | NInf => Fin 0
  | NaN => NaN
  end.

(** *** Tensors of rank 2, as lists of rows *)

Definition tensor : Type := list (list f32).

Definition tf_eye (n : nat) : tensor :=
  map (fun i => map (fun j => if Nat.eqb i j then one else zero) (seq 0 n))
      (seq 0 n).

Definition map2 (f : f32 -> f32 -> f32) (X Y : tensor) : tensor :=
  map (fun rows => map (fun ab => f (fst ab) (snd ab))
                       (combine (fst rows) (snd rows)))
      (combine X Y).

(** [tf.multiply], [X + Y], [X - Y] and [a * X]. *)
Definition tf_multiply : tensor -> tensor -> tensor := map2 mul.
Definition tadd : tensor -> tensor -> tensor := map2 add.
Definition tsub : tensor -> tensor -> tensor := map2 sub.
Definition scale (a : f32) (X : tensor) : tensor := map (map (mul a)) X.

Definition column (j : nat) (X : tensor) : list f32 :=
  map (fun row => nth j row zero) X.

(** [K.transpose] *)
Definition K_transpose (X : tensor) : tensor :=
  map (fun j => column j X) (seq 0 (List.length (hd [] X))).

(** One entry of a matrix product: the products are rounded and summed
    from left to right.  (A fused multiply-add, or another order of the
    sum, gives the same values wherever this file evaluates a product.) *)
Definition dot (u v : list f32) : f32 :=
  fold_left (fun acc ab => add acc (mul (fst ab) (snd ab))) (combine u v) zero.

(** [tf.matmul] *)
Definition tf_matmul (X Y : tensor) : tensor :=
  map (fun row => map (fun j => dot row (column j Y))
                      (seq 0 (List.length (hd [] Y))))
      X.

(** [tf.linalg.trace] *)
Definition tf_linalg_trace (X : tensor) : f32 :=
  fold_left (fun acc i => add acc (nth i (nth i X []) zero))
            (seq 0 (List.length X)) zero.

(** [DAG_constraint(A, alpha)], line by line as above. *)
Definition DAG_constraint (A : tensor) (alpha : f32) : f32 :=
  let n_nodes := List.length A in
  let ident := tf_eye n_nodes in
  let x := tadd ident (scale alpha (tf_multiply A A)) in
  let x := Nat.iter (n_nodes - 1) (fun x => tf_matmul x x) x in
  let h_A := sub (tf_linalg_trace x) (of_Z (Z.of_nat n_nodes)) in
  h_A.


(** [gaussian_kl(g1, g2)] at one element. *)
Definition gaussian_kl (g1 g2 : f32 * f32) : f32 :=
  let '(mu_1, logvar_1) := g1 in
  let '(mu_2, logvar_2) := g2 in
  let kl :=
    add (mul (neg (pow2 (-1))) (add (sub one logvar_2) logvar_1))
        (mul (mul (pow2 (-1)) (exp (neg logvar_2)))
             (add (exp logvar_1)
                  (mul (sub mu_1 mu_2) (sub mu_1 mu_2)))) in
  kl.

End F32.








(** * Properties *)

(** ** Finite sums *)

Lemma rsum_ext (n : nat) (f g : nat -> R) :
  (forall k, (k < n)%nat -> f k = g k) -> rsum n f = rsum n g.
Proof.
  induction n as [|n IH]; intros E; simpl; [reflexivity|].
  rewrite IH, (E n); auto with arith.
Qed.

Lemma rsum_plus (n : nat) (f g : nat -> R) :
  rsum n (fun k => f k + g k) = rsum n f + rsum n g.
Proof. induction n as [|n IH]; simpl; [lra | rewrite IH; lra]. Qed.

Lemma rsum_scal_l (n : nat) (c : R) (f : nat -> R) :
  rsum n (fun k => c * f k) = c * rsum n f.
Proof. induction n as [|n IH]; simpl; [lra | rewrite IH; lra]. Qed.

Lemma rsum_scal_r (n : nat) (c : R) (f : nat -> R) :
  rsum n (fun k => f k * c) = rsum n f * c.
Proof. induction n as [|n IH]; simpl; [lra | rewrite IH; lra]. Qed.

Lemma rsum_zero (n : nat) (f : nat -> R) :
  (forall k, (k < n)%nat -> f k = 0) -> rsum n f = 0.
Proof.
  induction n as [|n IH]; intros Z; simpl; [reflexivity|].
  rewrite IH, (Z n); auto with arith; lra.
Qed.

Lemma rsum_const (n : nat) (c : R) : rsum n (fun _ => c) = INR n * c.
Proof.
  induction n as [|n IH]; [simpl; lra|].
  rewrite S_INR; simpl rsum; rewrite IH; lra.
Qed.

Lemma rsum_swap (n m : nat) (f : nat -> nat -> R) :
  rsum n (fun i => rsum m (fun j => f i j)) =
  rsum m (fun j => rsum n (fun i => f i j)).
Proof.
  induction n as [|n IH]; simpl.
  - symmetry; apply rsum_zero; reflexivity.
  - rewrite IH, <- rsum_plus; reflexivity.
Qed.

Lemma rsum_le (n : nat) (f g : nat -> R) :
  (forall k, (k < n)%nat -> f k <= g k) -> rsum n f <= rsum n g.
Proof.
  induction n as [|n IH]; intros L; simpl; [lra|].
  assert (f n <= g n) by auto with arith.
  assert (rsum n f <= rsum n g) by auto with arith.
  lra.
Qed.

Lemma rsum_nonneg (n : nat) (f : nat -> R) :
  (forall k, (k < n)%nat -> 0 <= f k) -> 0 <= rsum n f.
Proof.
  intros P. rewrite <- (rsum_zero n (fun _ => 0)) by reflexivity.
  apply rsum_le, P.
Qed.

(** A sum of non-negative terms bounds each of them. *)
Lemma rsum_term_le (n : nat) (f : nat -> R) (k : nat) :
  (forall i, (i < n)%nat -> 0 <= f i) -> (k < n)%nat -> f k <= rsum n f.
Proof.
  induction n as [|n IH]; intros P K; [lia|]. simpl.
  assert (0 <= f n) by auto with arith.
  assert (0 <= rsum n f) by (apply rsum_nonneg; auto with arith).
  destruct (Nat.eq_dec k n) as [->|D]; [lra|].
  assert (f k <= rsum n f) by (apply IH; [auto with arith | lia]).
  lra.
Qed.

(** ... and each pair of them. *)
Lemma rsum_two_terms_le (n : nat) (f : nat -> R) (k l : nat) :
  (forall i, (i < n)%nat -> 0 <= f i) ->
  (k < n)%nat -> (l < n)%nat -> k <> l -> f k + f l <= rsum n f.
Proof.
  induction n as [|n IH]; intros P K L D; [lia|]. simpl.
  assert (Pn : forall i, (i < n)%nat -> 0 <= f i) by auto with arith.
  assert (0 <= f n) by auto with arith.
  destruct (Nat.eq_dec k n) as [->|Dk].
  - assert (f l <= rsum n f) by (apply rsum_term_le; [assumption | lia]). lra.
  - destruct (Nat.eq_dec l n) as [->|Dl].
    + assert (f k <= rsum n f) by (apply rsum_term_le; [assumption | lia]). lra.
    + assert (f k + f l <= rsum n f) by (apply IH; [assumption | lia | lia | assumption]).
      lra.
Qed.

(** A sum whose terms vanish except at [i]. *)
Lemma rsum_single (n : nat) (f : nat -> R) (i : nat) :
  (i < n)%nat -> (forall k, (k < n)%nat -> k <> i -> f k = 0) ->
  rsum n f = f i.
Proof.
  induction n as [|n IH]; intros I Z; [lia|]. simpl.
  destruct (Nat.eq_dec i n) as [->|D].
  - rewrite rsum_zero; [lra|]. intros k K. apply Z; lia.
  - rewrite IH, (Z n); [lra | lia | lia | lia |].
    intros k K. apply Z; lia.
Qed.

(** A sum of terms all at least 1, one of them larger, exceeds their number. *)
Lemma rsum_gt_count (n : nat) (f : nat -> R) (i : nat) :
  (forall k, (k < n)%nat -> 1 <= f k) -> (i < n)%nat -> 1 < f i ->
  INR n < rsum n f.
Proof.
  intros P I G.
  assert (E : rsum n f = rsum n (fun k => f k - 1) + INR n).
  { replace (INR n) with (rsum n (fun _ => 1)) by (rewrite rsum_const; lra).
    rewrite <- rsum_plus. apply rsum_ext. intros; lra. }
  assert (f i - 1 <= rsum n (fun k => f k - 1)).
  { apply (rsum_term_le n (fun k => f k - 1)); [|assumption].
    intros k K. specialize (P k K). lra. }
  lra.
Qed.

(** ** Matrix algebra on tensors *)

Lemma teq_refl (X : Tensor2) : teq X X.
Proof. repeat split. Qed.

Lemma teq_sym (X Y : Tensor2) : teq X Y -> teq Y X.
Proof.
  intros (Hr & Hc & He). repeat split; try congruence.
  intros i j I J. symmetry. apply He; congruence.
Qed.

Lemma teq_trans (X Y Z : Tensor2) : teq X Y -> teq Y Z -> teq X Z.
Proof.
  intros (Hr & Hc & He) (Hr' & Hc' & He'). repeat split; try congruence.
  intros i j I J. rewrite He by assumption. apply He'; congruence.
Qed.

Lemma matmul_teq (X X' Y Y' : Tensor2) :
  cols X = rows Y -> teq X X' -> teq Y Y' ->
  teq (tf_matmul X Y) (tf_matmul X' Y').
Proof.
  intros S (Hr & Hc & He) (Hr' & Hc' & He'). repeat split; simpl; auto.
  intros i j I J. rewrite <- Hc. apply rsum_ext. intros k K.
  rewrite He, He'; auto. congruence.
Qed.

Lemma matmul_entry_assoc (X Y Z : Tensor2) (i j : nat) :
  entry (tf_matmul (tf_matmul X Y) Z) i j =
  entry (tf_matmul X (tf_matmul Y Z)) i j.
Proof.
  simpl.
  rewrite (rsum_ext _ _ (fun k => rsum (cols X)
             (fun l => entry X i l * entry Y l k * entry Z k j))).
  2:{ intros k _. rewrite <- rsum_scal_r. reflexivity. }
  rewrite rsum_swap. apply rsum_ext. intros l _.
  rewrite <- rsum_scal_l. apply rsum_ext. intros k _. lra.
Qed.

Lemma matmul_assoc (X Y Z : Tensor2) :
  teq (tf_matmul (tf_matmul X Y) Z) (tf_matmul X (tf_matmul Y Z)).
Proof.
  repeat split. intros i j _ _. apply matmul_entry_assoc.
Qed.

Lemma matmul_eye_l (n : nat) (X : Tensor2) :
  rows X = n -> teq (tf_matmul (tf_eye n) X) X.
Proof.
  intros S. repeat split; simpl; auto.
  intros i j I J.
  rewrite (rsum_single n _ i I).
  - rewrite Nat.eqb_refl. lra.
  - intros k K D. destruct (Nat.eqb_spec i k); [congruence | lra].
Qed.

Lemma matmul_eye_r (n : nat) (X : Tensor2) :
  cols X = n -> teq (tf_matmul X (tf_eye n)) X.
Proof.
  intros S. repeat split; simpl; auto.
  intros i j I J. rewrite S in *.
  rewrite (rsum_single n _ j J).
  - rewrite Nat.eqb_refl. lra.
  - intros k K D. destruct (Nat.eqb_spec k j); [congruence | lra].
Qed.

Lemma trace_teq (X Y : Tensor2) :
  teq X Y -> tf_linalg_trace X = tf_linalg_trace Y.
Proof.
  intros (Hr & Hc & He). unfold tf_linalg_trace. rewrite <- Hr, <- Hc.
  apply rsum_ext. intros k K. apply He; lia.
Qed.

Lemma matrix_power_shape (n : nat) (X : Tensor2) (k : nat) :
  square n X -> square n (matrix_power X k).
Proof.
  intros [Hr Hc]. induction k as [|k [_ IH]]; split; simpl; assumption.
Qed.

Lemma matrix_power_add (n : nat) (X : Tensor2) (a b : nat) :
  square n X ->
  teq (matrix_power X (a + b))
      (tf_matmul (matrix_power X a) (matrix_power X b)).
Proof.
  intros Sq. induction a as [|a IH]; simpl.
  - apply teq_sym, matmul_eye_l.
    destruct (matrix_power_shape n X b Sq) as [-> _]. symmetry; apply Sq.
  - eapply teq_trans; [|apply teq_sym, matmul_assoc].
    apply matmul_teq; [| apply teq_refl | exact IH].
    destruct Sq as [Hr Hc]. rewrite Hc.
    destruct (matrix_power_shape n X (a + b) (conj Hr Hc)) as [-> _].
    reflexivity.
Qed.

Lemma iter_square_shape (n : nat) (X : Tensor2) (t : nat) :
  square n X -> square n (Nat.iter t (fun x => tf_matmul x x) X).
Proof.
  intros Sq. induction t as [|t IH]; simpl; [exact Sq|].
  destruct IH as [Hr Hc]. split; simpl; assumption.
Qed.

(** [t] squarings raise to the power [2 ^ t]. *)
Lemma iter_square_power (n : nat) (X : Tensor2) (t : nat) :
  square n X ->
  teq (Nat.iter t (fun x => tf_matmul x x) X) (matrix_power X (2 ^ t)).
Proof.
  intros Sq. induction t as [|t IH].
  - simpl. apply teq_sym, matmul_eye_r. destruct Sq as [-> ->]. reflexivity.
  - change (Nat.iter (S t) (fun x => tf_matmul x x) X)
      with (tf_matmul (Nat.iter t (fun x => tf_matmul x x) X)
                      (Nat.iter t (fun x => tf_matmul x x) X)).
    replace (2 ^ S t)%nat with (2 ^ t + 2 ^ t)%nat by (simpl; lia).
    eapply teq_trans; [|apply teq_sym, (matrix_power_add n); exact Sq].
    apply matmul_teq; try exact IH.
    destruct (iter_square_shape n X t Sq) as [-> ->]. reflexivity.
Qed.

(** The matrix [ident + alpha * tf.multiply(A, A)] of [DAG_constraint]. *)
Lemma DAG_base_shape (A : Tensor2) (alpha : R) :
  rows A = cols A ->
  square (rows A) (tadd (tf_eye (rows A)) (scale alpha (tf_multiply A A))).
Proof. intros _. split; reflexivity. Qed.

(** Evaluation of tensor expressions on literal matrices, down to real
    arithmetic. *)
Ltac tensor_eval :=
  cbv [of_rows entry rows cols len item tf_eye tf_zeros tf_ones tadd tsub
       scale tf_multiply tf_matmul tf_linalg_trace K_transpose K_mean_last
       vscale vneg K_exp K_square tneg scalar_minus matrix_power
       Nat.iter nat_rect rsum Nat.min Nat.sub Nat.pow Nat.mul Nat.add
       nth Nat.eqb INR].

(** ** The acyclicity measure *)

Example DAG_constraint_two_cycle_3 : DAG_constraint two_cycle_3 1 = 14.
Proof. unfold DAG_constraint, two_cycle_3. tensor_eval. lra. Qed.

Example third_power_two_cycle_3 :
  tf_linalg_trace
    (matrix_power
       (tadd (tf_eye 3) (scale 1 (tf_multiply two_cycle_3 two_cycle_3))) 3)
  - INR 3 = 6.
Proof. unfold two_cycle_3. tensor_eval. lra. Qed.

(** C1: [DAG_constraint] does not return the trace of the n-th power minus
    n.  On the 3 x 3 matrix of the two-cycle 0 -> 1 -> 0, with alpha = 1,
    it returns 14, the trace of the fourth power minus 3: the loop runs
    n - 1 times and each pass squares [x] where a multiplication by the
    base matrix would give the n-th power, whose trace minus 3 is 6.  All
    the values are small integers, exact in float32 too. *)
Lemma DAG_constraint_not_nth_power :
  DAG_constraint two_cycle_3 1 <>
  tf_linalg_trace
    (matrix_power
       (tadd (tf_eye 3) (scale 1 (tf_multiply two_cycle_3 two_cycle_3))) 3)
  - INR 3.
Proof.
  rewrite DAG_constraint_two_cycle_3, third_power_two_cycle_3. lra.
Qed.

(** What the loop computes, over exact arithmetic: for every n x n matrix
    A and every alpha, the trace of the power [2 ^ (n - 1)] of
    [I + alpha * tf.multiply(A, A)], minus n: the n - 1 squarings double
    the exponent each time. *)
Theorem DAG_constraint_power (A : Tensor2) (alpha : R) :
  rows A = cols A ->
  DAG_constraint A alpha =
  tf_linalg_trace
    (matrix_power
       (tadd (tf_eye (rows A)) (scale alpha (tf_multiply A A)))
       (2 ^ (rows A - 1)))
  - INR (rows A).
Proof.
  intros Sq. unfold DAG_constraint. f_equal.
  apply trace_teq, (iter_square_power (rows A)), DAG_base_shape, Sq.
Qed.

Lemma DAG_constraint_power_witness :
  rows two_cycle_3 = cols two_cycle_3 /\
  DAG_constraint two_cycle_3 1 =
  tf_linalg_trace
    (matrix_power
       (tadd (tf_eye 3) (scale 1 (tf_multiply two_cycle_3 two_cycle_3)))
       (2 ^ (3 - 1)))
  - INR 3.
Proof.
  split; [reflexivity|].
  exact (DAG_constraint_power two_cycle_3 1 eq_refl).
Defined.

(** *** Triangular matrices *)

Local Abbreviation squarings t X := (Nat.iter t (fun x => tf_matmul x x) X).
Local Abbreviation DAG_base A alpha :=
  (tadd (tf_eye (rows A)) (scale alpha (tf_multiply A A))).

Lemma DAG_base_triangular (up : bool) (A : Tensor2) (alpha : R) :
  rows A = cols A ->
  (if up then strictly_upper A else strictly_lower A) ->
  unit_triangular up (rows A) (DAG_base A alpha).
Proof.
  intros Sq T i j I J. simpl. split.
  - intros ->. rewrite Nat.eqb_refl.
    assert (entry A j j = 0) as ->
      by (destruct up; apply T; (assumption || lia)).
    lra.
  - intros L.
    assert (entry A i j = 0) as ->
      by (destruct up; apply T; (assumption || lia)).
    destruct (Nat.eqb_spec i j); [destruct up; lia | lra].
Qed.

Lemma matmul_triangular (up : bool) (n : nat) (X Y : Tensor2) :
  cols X = n -> unit_triangular up n X -> unit_triangular up n Y ->
  unit_triangular up n (tf_matmul X Y).
Proof.
  intros C TX TY i j I J. simpl. rewrite C. split.
  - intros <-. rewrite (rsum_single n _ i I).
    + destruct (TX i i I I) as [-> _], (TY i i I I) as [-> _]; auto. lra.
    + intros k K D.
      destruct (TX i k I K) as [_ ZX], (TY k i K I) as [_ ZY].
      destruct up; destruct (Nat.lt_ge_cases k i);
        try (rewrite ZX by lia; lra); rewrite ZY by lia; lra.
  - intros L. apply rsum_zero. intros k K.
    destruct (TX i k I K) as [_ ZX], (TY k j K J) as [_ ZY].
    destruct up.
    + destruct (Nat.lt_ge_cases k i);
        [rewrite ZX by lia | rewrite ZY by lia]; lra.
    + destruct (Nat.lt_ge_cases i k);
        [rewrite ZX by lia | rewrite ZY by lia]; lra.
Qed.

Lemma squarings_triangular (up : bool) (n : nat) (X : Tensor2) (t : nat) :
  square n X -> unit_triangular up n X ->
  unit_triangular up n (squarings t X).
Proof.
  intros Sq T. induction t as [|t IH]; [exact T|].
  apply matmul_triangular; try exact IH.
  apply (iter_square_shape n X t Sq).
Qed.

Lemma trace_triangular (up : bool) (n : nat) (X : Tensor2) :
  square n X -> unit_triangular up n X -> tf_linalg_trace X = INR n.
Proof.
  intros [Hr Hc] T. unfold tf_linalg_trace. rewrite Hr, Hc, Nat.min_id.
  rewrite (rsum_ext n _ (fun _ => 1)); [rewrite rsum_const; lra|].
  intros k K. destruct (T k k K K) as [E _]. auto.
Qed.

Lemma DAG_constraint_triangular (up : bool) (A : Tensor2) (alpha : R) :
  rows A = cols A ->
  (if up then strictly_upper A else strictly_lower A) ->
  DAG_constraint A alpha = 0.
Proof.
  intros Sq T. unfold DAG_constraint.
  rewrite (trace_triangular up (rows A)); [lra | |].
  - apply iter_square_shape, DAG_base_shape, Sq.
  - apply squarings_triangular; [apply DAG_base_shape, Sq|].
    apply DAG_base_triangular; assumption.
Qed.

(** *** Matrices with a directed cycle *)

Lemma DAG_base_dominates (A : Tensor2) (alpha : R) :
  0 < alpha -> dominates_eye (rows A) (DAG_base A alpha).
Proof.
  intros Pa. split.
  - intros i j _ _. simpl.
    assert (0 <= entry A i j * entry A i j) by nra.
    destruct (Nat.eqb i j); nra.
  - intros i _. simpl. rewrite Nat.eqb_refl.
    assert (0 <= entry A i i * entry A i i) by nra. nra.
Qed.

Lemma DAG_base_edge (A : Tensor2) (alpha : R) (i j : nat) :
  0 < alpha -> edge A i j -> 0 < entry (DAG_base A alpha) i j.
Proof.
  intros Pa E. simpl.
  assert (0 < entry A i j * entry A i j)
    by (destruct (Rtotal_order (entry A i j) 0) as [|[|]]; [nra | contradiction | nra]).
  destruct (Nat.eqb i j); nra.
Qed.

Lemma DAG_base_loop (A : Tensor2) (alpha : R) (i : nat) :
  0 < alpha -> edge A i i -> 1 < entry (DAG_base A alpha) i i.
Proof.
  intros Pa E. generalize (DAG_base_edge A alpha i i Pa E).
  simpl. rewrite Nat.eqb_refl.
  assert (0 < entry A i i * entry A i i)
    by (destruct (Rtotal_order (entry A i i) 0) as [|[|]]; [nra | contradiction | nra]).
  nra.
Qed.

Section Squaring.

Variables (n : nat) (X : Tensor2).
Hypothesis Sq : square n X.
Hypothesis Dom : dominates_eye n X.

Lemma square_term_nonneg (i j k : nat) :
  (i < n)%nat -> (j < n)%nat -> (k < n)%nat ->
  0 <= entry X i k * entry X k j.
Proof.
  intros I J K. destruct Dom as [P _].
  apply Rmult_le_pos; apply P; assumption.
Qed.

Lemma square_dominates : dominates_eye n (tf_matmul X X).
Proof.
  destruct Sq as [Hr Hc]. split; simpl; rewrite Hc.
  - intros i j I J. apply rsum_nonneg. intros k K. apply square_term_nonneg; assumption.
  - intros i I.
    assert (L : entry X i i * entry X i i
                <= rsum n (fun k => entry X i k * entry X k i)).
    { apply (rsum_term_le n (fun k => entry X i k * entry X k i)); [|assumption].
      intros k K. apply square_term_nonneg; assumption. }
    destruct Dom as [_ D]. specialize (D i I). nra.
Qed.

Lemma square_positive (i j k : nat) :
  (i < n)%nat -> (j < n)%nat -> (k < n)%nat ->
  0 < entry X i k -> 0 < entry X k j -> 0 < entry (tf_matmul X X) i j.
Proof.
  intros I J K Pik Pkj. destruct Sq as [Hr Hc]. simpl. rewrite Hc.
  assert (L : entry X i k * entry X k j
              <= rsum n (fun l => entry X i l * entry X l j)).
  { apply (rsum_term_le n (fun l => entry X i l * entry X l j)); [|assumption].
    intros l L. apply square_term_nonneg; assumption. }
  assert (0 < entry X i k * entry X k j) by (apply Rmult_lt_0_compat; assumption).
  lra.
Qed.

Lemma square_positive_mono (i j : nat) :
  (i < n)%nat -> (j < n)%nat ->
  0 < entry X i j -> 0 < entry (tf_matmul X X) i j.
Proof.
  intros I J P. apply (square_positive i j j); try assumption.
  destruct Dom as [_ D]. specialize (D j J). lra.
Qed.

Lemma square_diag_mono (i : nat) :
  (i < n)%nat -> entry X i i <= entry (tf_matmul X X) i i.
Proof.
  intros I. destruct Sq as [Hr Hc]. simpl. rewrite Hc.
  assert (L : entry X i i * entry X i i
              <= rsum n (fun k => entry X i k * entry X k i)).
  { apply (rsum_term_le n (fun k => entry X i k * entry X k i)); [|assumption].
    intros k K. apply square_term_nonneg; assumption. }
  destruct Dom as [_ D]. specialize (D i I). nra.
Qed.

Lemma square_diag_gt (i k : nat) :
  (i < n)%nat -> (k < n)%nat -> i <> k ->
  0 < entry X i k -> 0 < entry X k i -> 1 < entry (tf_matmul X X) i i.
Proof.
  intros I K D Pik Pki. destruct Sq as [Hr Hc]. simpl. rewrite Hc.
  assert (L : entry X i i * entry X i i + entry X i k * entry X k i
              <= rsum n (fun l => entry X i l * entry X l i)).
  { apply (rsum_two_terms_le n (fun l => entry X i l * entry X l i));
      try assumption.
    intros l L. apply square_term_nonneg; assumption. }
  assert (0 < entry X i k * entry X k i) by (apply Rmult_lt_0_compat; assumption).
  destruct Dom as [_ Dg]. specialize (Dg i I). nra.
Qed.

End Squaring.

Section Cycle.

Variables (A : Tensor2) (alpha : R).
Hypothesis SqA : rows A = cols A.
Hypothesis Pa : 0 < alpha.

Local Abbreviation n := (rows A).
Local Abbreviation X t := (squarings t (DAG_base A alpha)).

Lemma squarings_shape (t : nat) : square n (X t).
Proof. apply iter_square_shape, DAG_base_shape, SqA. Qed.

Lemma squarings_dominate (t : nat) : dominates_eye n (X t).
Proof.
  induction t as [|t IH]; [apply DAG_base_dominates, Pa|].
  apply (square_dominates n (X t) (squarings_shape t) IH).
Qed.

Lemma squarings_positive_mono (i j : nat) (t t' : nat) :
  (i < n)%nat -> (j < n)%nat -> (t <= t')%nat ->
  0 < entry (X t) i j -> 0 < entry (X t') i j.
Proof.
  intros I J L P. induction L as [|t' L IH]; [exact P|].
  apply (square_positive_mono n (X t') (squarings_shape t')
           (squarings_dominate t')); assumption.
Qed.

Lemma squarings_diag_mono (i : nat) (t t' : nat) :
  (i < n)%nat -> (t <= t')%nat -> entry (X t) i i <= entry (X t') i i.
Proof.
  intros I L. induction L as [|t' L IH]; [lra|].
  apply Rle_trans with (1 := IH).
  apply (square_diag_mono n (X t') (squarings_shape t')
           (squarings_dominate t')); assumption.
Qed.

(** A walk through [length l] intermediate vertices shows after as many
    squarings. *)
Lemma walk_positive (l : list nat) : forall (i j t : nat),
  (i < n)%nat -> (j < n)%nat -> Forall (fun k => (k < n)%nat) l ->
  walk A i l j -> (List.length l <= t)%nat -> 0 < entry (X t) i j.
Proof.
  induction l as [|k l IH]; intros i j t I J F W L.
  - apply (squarings_positive_mono i j 0 t); try assumption.
    apply DAG_base_edge; assumption.
  - destruct W as [E W]. inversion F as [|? ? K F']; subst.
    destruct t as [|t]; [simpl in L; lia|].
    apply (square_positive n (X t) (squarings_shape t)
             (squarings_dominate t) i j k); try assumption.
    + apply (squarings_positive_mono i k 0 t); try assumption; [lia|].
      apply DAG_base_edge; assumption.
    + apply IH; try assumption. simpl in L. lia.
Qed.

Lemma cycle_length (c : list nat) :
  NoDup c -> Forall (fun k => (k < n)%nat) c -> (List.length c <= n)%nat.
Proof.
  intros D F.
  assert (I : incl c (seq 0 n)).
  { intros k K. apply in_seq. rewrite Forall_forall in F.
    specialize (F k K). lia. }
  generalize (NoDup_incl_length D I). rewrite length_seq. trivial.
Qed.

Lemma cycle_diag_gt (c : list nat) :
  directed_cycle A c ->
  exists v, (v < n)%nat /\ 1 < entry (X (n - 1)) v v.
Proof.
  destruct c as [|v l]; [intros []|]. intros (D & F & W).
  assert (V : (v < n)%nat) by (inversion F; assumption).
  exists v. split; [exact V|].
  destruct l as [|k l].
  - apply Rlt_le_trans with (entry (X 0) v v).
    + apply DAG_base_loop; assumption.
    + apply squarings_diag_mono; [assumption | lia].
  - destruct W as [E W].
    assert (Len : (List.length (v :: k :: l) <= n)%nat)
      by (apply cycle_length; assumption).
    simpl in Len.
    assert (K : (k < n)%nat)
      by (inversion F as [|? ? _ F']; inversion F'; assumption).
    assert (Fl : Forall (fun k => (k < n)%nat) l)
      by (inversion F as [|? ? _ F']; inversion F'; assumption).
    assert (Dvk : v <> k).
    { inversion D as [|? ? Nin _]; subst. intros ->. apply Nin. left. reflexivity. }
    replace (n - 1)%nat with (S (n - 2)) by lia.
    apply (square_diag_gt n (X (n - 2)) (squarings_shape _)
             (squarings_dominate _) v k); try assumption.
    + apply (squarings_positive_mono v k 0); try assumption; [lia|].
      apply DAG_base_edge; assumption.
    + apply (walk_positive l); try assumption. lia.
Qed.

Lemma DAG_constraint_cycle (c : list nat) :
  directed_cycle A c -> 0 < DAG_constraint A alpha.
Proof.
  intros Cyc. destruct (cycle_diag_gt c Cyc) as (v & V & G).
  change (DAG_constraint A alpha)
    with (tf_linalg_trace (X (n - 1)) - INR n).
  destruct (squarings_shape (n - 1)) as [Hr Hc].
  unfold tf_linalg_trace. rewrite Hr, Hc, Nat.min_id.
  assert (INR n < rsum n (fun i => entry (X (n - 1)) i i)); [|lra].
  apply (rsum_gt_count n _ v); try assumption.
  intros k K. apply (squarings_dominate (n - 1)). exact K.
Qed.

End Cycle.

(** *** Closed walks contain a directed cycle *)

Lemma walk_app (A : Tensor2) (l1 l2 : list nat) : forall (i k j : nat),
  walk A i (l1 ++ k :: l2) j -> walk A i l1 k /\ walk A k l2 j.
Proof.
  induction l1 as [|a l1 IH]; intros i k j W; simpl in W |- *.
  - exact W.
  - destruct W as [E W]. destruct (IH a k j W) as [W1 W2]. auto.
Qed.

(** A list of vertices with a repetition splits around two occurrences. *)
Lemma repetition_split (l : list nat) :
  ~ NoDup l -> exists a l1 l2 l3, l = (l1 ++ a :: l2 ++ a :: l3)%list.
Proof.
  induction l as [|x l IH]; intros N.
  - destruct N. constructor.
  - destruct (in_dec Nat.eq_dec x l) as [I|I].
    + destruct (in_split x l I) as (l2 & l3 & ->).
      exists x, [], l2, l3. reflexivity.
    + destruct IH as (a & l1 & l2 & l3 & ->).
      { intros D. apply N. constructor; assumption. }
      exists a, (x :: l1), l2, l3. reflexivity.
Qed.

Lemma closed_walk_has_cycle (A : Tensor2) (m : nat) : forall (v : nat) (l : list nat),
  (List.length l <= m)%nat ->
  Forall (fun k => (k < rows A)%nat) (v :: l) ->
  walk A v l v ->
  exists c, directed_cycle A c.
Proof.
  induction m as [|m IH]; intros v l Len F W.
  - destruct l; [|simpl in Len; lia].
    exists [v]. simpl. repeat split; try assumption.
    repeat constructor. intros [].
  - destruct (ListDec.NoDup_dec Nat.eq_dec (v :: l)) as [D|N].
    + exists (v :: l). simpl. auto.
    + destruct (repetition_split _ N) as (a & l1 & l2 & l3 & E).
      assert (W2 : walk A a l2 a /\ In a (v :: l) /\ incl l2 l /\
                   (List.length l2 < List.length l)%nat).
      { destruct l1 as [|x l1]; simpl in E; injection E as -> ->.
        - destruct (walk_app A l2 l3 a a a W) as [W2 _].
          repeat split; [exact W2 | left; reflexivity | | ].
          + intros k K. apply in_or_app. left. exact K.
          + rewrite length_app. simpl. lia.
        - destruct (walk_app A l1 (l2 ++ a :: l3) x a x W) as [_ W'].
          destruct (walk_app A l2 l3 a a x W') as [W2 _].
          repeat split; [exact W2 | | | ].
          + right. apply in_or_app. right. left. reflexivity.
          + intros k K. apply in_or_app. right. right.
            apply in_or_app. left. exact K.
          + rewrite !length_app. simpl. rewrite length_app. simpl. lia. }
      destruct W2 as (W2 & Ia & Inc & L2).
      apply (IH a l2); [lia | | exact W2].
      rewrite Forall_forall in F. apply Forall_forall.
      intros k [<-|K]; apply F; [exact Ia | right; apply Inc, K].
Qed.




Lemma upper_3_strictly_upper : strictly_upper upper_3.
Proof.
  intros i j I J L. simpl in I, J.
  destruct i as [|[|[|i]]]; destruct j as [|[|[|j]]];
    try lia; reflexivity.
Qed.


(** ** The structural transforms *)

Lemma tf_linalg_inv_inverse (M : Tensor2) :
  (exists N, is_inverse M N) ->
  exists N, tf_linalg_inv M = Ok N /\ is_inverse M N.
Proof.
  intros E. unfold tf_linalg_inv.
  destruct (excluded_middle_informative (exists N, is_inverse M N)) as [H|H];
    [|contradiction].
  destruct (constructive_indefinite_description _ H) as [N HN].
  exists N. split; [reflexivity | exact HN].
Qed.

Lemma tf_linalg_inv_singular (M : Tensor2) :
  ~ (exists N, is_inverse M N) -> tf_linalg_inv M = Raise InvalidArgumentError.
Proof.
  intros E. unfold tf_linalg_inv.
  destruct (excluded_middle_informative (exists N, is_inverse M N));
    [contradiction | reflexivity].
Qed.

(** [InvTransMultA.call] on the layers followed by [A]. *)
Lemma InvTransMultA_call_app (layers : list Tensor2) (A : Tensor2) :
  (exists N, is_inverse (tsub (tf_eye (rows A)) (K_transpose A)) N) ->
  exists N,
    is_inverse (tsub (tf_eye (rows A)) (K_transpose A)) N /\
    InvTransMultA.call (layers ++ [A]) =
    Ok (map (fun layer => tf_matmul N layer) layers).
Proof.
  intros E. destruct (tf_linalg_inv_inverse _ E) as (N & EN & IN).
  exists N. split; [exact IN|].
  unfold InvTransMultA.call.
  rewrite removelast_last, length_app. simpl List.length.
  replace (List.length layers + 1 - 1)%nat with (List.length layers) by lia.
  rewrite nth_error_app2, Nat.sub_diag by lia. simpl.
  rewrite EN. reflexivity.
Qed.

(** Multiplying by a matrix and then by its inverse gives the tensor back. *)
Lemma inverse_cancel (M N X : Tensor2) :
  is_inverse M N -> rows X = rows M ->
  teq (tf_matmul N (tf_matmul M X)) X.
Proof.
  intros (Sq & Nr & Nc & Left & _) RX.
  apply teq_trans with (tf_matmul (tf_matmul N M) X);
    [apply teq_sym, matmul_assoc|].
  apply teq_trans with (tf_matmul (tf_eye (rows M)) X);
    [|apply matmul_eye_l, RX].
  apply matmul_teq; [simpl; congruence | exact Left | apply teq_refl].
Qed.




Lemma edge_inverse_2_is_inverse :
  is_inverse
    (tsub (tf_eye (rows (value (TransMultA.A edge_layer_2))))
          (K_transpose (value (TransMultA.A edge_layer_2))))
    edge_inverse_2.
Proof.
  unfold is_inverse, teq. simpl rows. simpl cols.
  repeat split; intros i j I J;
    destruct i as [|[|i]]; destruct j as [|[|j]]; try lia;
    unfold edge_layer_2, edge_inverse_2; simpl value; tensor_eval; lra.
Qed.


(** *** The adjacency weight as [build] leaves it *)

Lemma zeros_strictly_upper (n : nat) : strictly_upper (tf_zeros n n).
Proof. intros i j _ _ _. reflexivity. Qed.

Lemma eye_minus_zeros (n : nat) :
  teq (tsub (tf_eye n) (K_transpose (tf_zeros n n))) (tf_eye n).
Proof. repeat split. intros i j _ _. simpl. lra. Qed.

Lemma eye_is_inverse_of_eye_minus_zeros (n : nat) :
  is_inverse (tsub (tf_eye n) (K_transpose (tf_zeros n n))) (tf_eye n).
Proof.
  repeat split; simpl; intros i j I J.
  - rewrite (rsum_single n _ i I).
    + rewrite Nat.eqb_refl. lra.
    + intros k K D. destruct (Nat.eqb_spec i k); [congruence | lra].
  - rewrite (rsum_single n _ j J).
    + rewrite Nat.eqb_refl. lra.
    + intros k K D. destruct (Nat.eqb_spec k j); [congruence | lra].
Qed.

(** C10: after [build] the adjacency weight is the zero matrix; on tensors
    with n_nodes rows the forward transform returns its inputs (and A), the
    inverse transform succeeds and returns its inputs, and
    [DAG_constraint(A, alpha)] is 0. *)
Theorem initial_adjacency_is_acyclic_identity
  (n_nodes : nat) (x : list Tensor2) (alpha : R) :
  Forall (fun X => rows X = n_nodes) x ->
  let self := TransMultA.build n_nodes in
  let A := value (TransMultA.A self) in
  A = tf_zeros n_nodes n_nodes /\
  Forall2 teq (fst (TransMultA.call self x)) x /\
  snd (TransMultA.call self x) = A /\
  (exists outputs,
     InvTransMultA.call (x ++ [A]) = Ok outputs /\ Forall2 teq outputs x) /\
  DAG_constraint A alpha = 0.
Proof.
  intros Sh self A. split; [reflexivity|]. split; [|split; [reflexivity|split]].
  - unfold TransMultA.call. cbn [fst]. fold A.
    induction Sh as [|X l RX Sh IH]; constructor; [|exact IH].
    apply teq_trans with (tf_matmul (tf_eye n_nodes) X);
      [|apply matmul_eye_l, RX].
    apply matmul_teq; [simpl; congruence | apply eye_minus_zeros | apply teq_refl].
  - destruct (InvTransMultA_call_app x A) as (N & IN & ->).
    { exists (tf_eye n_nodes). apply eye_is_inverse_of_eye_minus_zeros. }
    eexists. split; [reflexivity|].
    induction Sh as [|X l RX Sh IH]; constructor; [|exact IH].
    apply teq_trans
      with (tf_matmul N (tf_matmul (tsub (tf_eye (rows A)) (K_transpose A)) X)).
    + destruct IN as (_ & Nr & Nc & _). apply matmul_teq.
      * simpl in Nc. congruence.
      * apply teq_refl.
      * apply teq_sym.
        apply teq_trans with (tf_matmul (tf_eye n_nodes) X);
          [|apply matmul_eye_l, RX].
        apply matmul_teq;
          [simpl; congruence | apply eye_minus_zeros | apply teq_refl].
    + apply inverse_cancel; [exact IN | exact RX].
  - apply (DAG_constraint_triangular true); [reflexivity|].
    apply zeros_strictly_upper.
Qed.

Lemma initial_adjacency_is_acyclic_identity_witness :
  let self := TransMultA.build 2 in
  let A := value (TransMultA.A self) in
  A = tf_zeros 2 2 /\
  Forall2 teq (fst (TransMultA.call self [column_2])) [column_2] /\
  snd (TransMultA.call self [column_2]) = A /\
  (exists outputs,
     InvTransMultA.call ([column_2] ++ [A]) = Ok outputs /\
     Forall2 teq outputs [column_2]) /\
  DAG_constraint A (1 / 2) = 0.
Proof.
  apply (initial_adjacency_is_acyclic_identity 2 [column_2] (1 / 2)).
  repeat constructor.
Defined.

(** ** The KL-divergence layer *)

Lemma gaussian_kl_entry (mu_1 logvar_1 mu_2 logvar_2 : Tensor2) (i j : nat) :
  entry (KLDivergenceLayer.gaussian_kl (mu_1, logvar_1) (mu_2, logvar_2)) i j =
  kl_term (entry mu_1 i j) (entry logvar_1 i j)
          (entry mu_2 i j) (entry logvar_2 i j).
Proof. reflexivity. Qed.

Lemma kl_term_self (m lv : R) : kl_term m lv m lv = 0.
Proof.
  unfold kl_term. rewrite exp_Ropp.
  assert (exp lv <> 0) by (apply Rgt_not_eq, exp_pos).
  replace (-0.5) with (- (1 / 2)) by lra.
  replace 0.5 with (1 / 2) by lra.
  field. assumption.
Qed.








Lemma kl_term_1_0_0_0 : kl_term 1 0 0 0 = 1 / 2.
Proof. unfold kl_term. rewrite Ropp_0, exp_0. lra. Qed.

(** C7, as stated, fails: for one sample with two latent dimensions, mean
    (1, 1) and log-variance (0, 0), against the reference (0, 0) with
    beta = 1, each term is 1/2; summed over the dimensions and averaged
    over the batch that is 1, but the layer registers their mean, 1/2. *)
Lemma KL_layer_loss_is_not_the_sum :
  item (nth 0 (snd (KLDivergenceLayer.call unit_kl_layer
                      (ones_1x2, zeros_1x2, ones_1x2) []))
              (mkT1 0 (fun _ => 0))) 0
  <> spec_kl_loss 1 0 0 ones_1x2 zeros_1x2.
Proof.
  assert (E : item (nth 0 (snd (KLDivergenceLayer.call unit_kl_layer
                                  (ones_1x2, zeros_1x2, ones_1x2) []))
                          (mkT1 0 (fun _ => 0))) 0 = 1 / 2).
  { cbn. replace (0 * 1) with 0 by lra.
    fold (kl_term 1 0 0 0). rewrite kl_term_1_0_0_0. lra. }
  assert (S : spec_kl_loss 1 0 0 ones_1x2 zeros_1x2 = 1).
  { unfold spec_kl_loss. cbn. rewrite kl_term_1_0_0_0. lra. }
  rewrite E, S. lra.
Qed.

(** C7, amended: for a batch with at least one latent dimension the layer
    registers one loss with one value per sample of the batch: beta times
    the mean over the latent dimensions (the last axis) of the analytic
    term against the reference broadcast to the batch shape; no reduction
    over the batch takes place in the layer. *)
Theorem KL_layer_loss_is_the_latent_mean
  (self : KLDivergenceLayer.t) (z_mean z_log_var z : Tensor2)
  (losses : list Tensor1) :
  (0 < cols z_mean)%nat ->
  exists loss,
    snd (KLDivergenceLayer.call self (z_mean, z_log_var, z) losses)
    = (losses ++ [loss])%list /\
    len loss = rows z_mean /\
    forall b,
      item loss b =
      KLDivergenceLayer.beta self *
      (rsum (cols z_mean) (fun d =>
         kl_term (entry z_mean b d) (entry z_log_var b d)
                 (KLDivergenceLayer.mean self)
                 (KLDivergenceLayer.log_var self))
       / INR (cols z_mean)).
Proof.
  intros _. eexists. split; [reflexivity|]. split; [reflexivity|].
  intros b. cbn. f_equal. f_equal. apply rsum_ext. intros d _.
  unfold kl_term. rewrite !Rmult_1_r. reflexivity.
Qed.

Lemma KL_layer_loss_is_the_latent_mean_witness :
  exists loss,
    snd (KLDivergenceLayer.call unit_kl_layer
           (ones_1x2, zeros_1x2, ones_1x2) [])
    = ([] ++ [loss])%list /\
    len loss = rows ones_1x2 /\
    forall b,
      item loss b =
      KLDivergenceLayer.beta unit_kl_layer *
      (rsum (cols ones_1x2) (fun d =>
         kl_term (entry ones_1x2 b d) (entry zeros_1x2 b d)
                 (KLDivergenceLayer.mean unit_kl_layer)
                 (KLDivergenceLayer.log_var unit_kl_layer))
       / INR (cols ones_1x2)).
Proof.
  apply (KL_layer_loss_is_the_latent_mean unit_kl_layer
           ones_1x2 zeros_1x2 ones_1x2 []).
  simpl. lia.
Defined.

(** ** The loss layers forward their data *)

(** C9: each loss layer returns its forwarded input unchanged
    ([inputs[1]], [inputs[2]] and [inputs[1]]) and its only effect is to
    append one loss to the registered losses. *)
Theorem loss_layers_are_identities :
  (forall (self : ReconstructionLossLayer.t) (y : Tensor2)
          (params : list Tensor2) (losses : list Tensor1),
     ReconstructionLossLayer.call self (y, params) losses =
     (params,
      (losses ++ [vneg (K_mean_last
                          (ReconstructionLossLayer.rl self y params
                             (ReconstructionLossLayer.eps self)))])%list)) /\
  (forall (self : KLDivergenceLayer.t) (z_mean z_log_var z : Tensor2)
          (losses : list Tensor1),
     KLDivergenceLayer.call self (z_mean, z_log_var, z) losses =
     (z,
      (losses ++ [vscale (KLDivergenceLayer.beta self)
                    (K_mean_last
                       (KLDivergenceLayer.gaussian_kl (z_mean, z_log_var)
                          (KLDivergenceLayer.create_reference self
                             (z_mean, z_log_var, z))))])%list)) /\
  (forall (self : ConstraintLossLayer.t) (A : Tensor2)
          (layers : list Tensor2) (losses : list Tensor1),
     ConstraintLossLayer.call self (A, layers) losses =
     (layers,
      (losses ++ [ConstraintLossLayer.cl self
                    (value (ConstraintLossLayer.lambda_A self))
                    (value (ConstraintLossLayer.penalty_A self))
                    A (ConstraintLossLayer.alpha self)])%list)).
Proof. repeat split. Qed.

(** ** The augmented-Lagrangian schedule *)

Section Schedule.

Variable Body : Type.
Variable optimizer_body : Autoencoder Body -> Body.
Variable optimizer_scalar : Autoencoder Body -> Weight R -> R.

Local Abbreviation fit' := (fit Body optimizer_body optimizer_scalar).
Local Abbreviation round' := (round Body optimizer_body optimizer_scalar).
Local Abbreviation rounds' := (rounds Body optimizer_body optimizer_scalar).

Lemma apply_gradients_frozen (m : Autoencoder Body) (w : Weight R) :
  trainable w = false ->
  apply_gradients Body optimizer_scalar m w = w.
Proof. intros F. unfold apply_gradients. rewrite F. reflexivity. Qed.

(** A [fit] call leaves the two weights as they are. *)
Lemma fit_keeps_weights (m : Autoencoder Body) :
  frozen m ->
  ConstraintLossLayer.get_weights (last_layer (fit' m)) =
  ConstraintLossLayer.get_weights (last_layer m) /\
  frozen (fit' m).
Proof.
  intros [Fl Fp]. unfold frozen, fit, ConstraintLossLayer.get_weights.
  cbn [last_layer ConstraintLossLayer.lambda_A ConstraintLossLayer.penalty_A].
  rewrite !apply_gradients_frozen by assumption. auto.
Qed.

(** One round adds 1 to each of them. *)
Lemma round_increments (m : Autoencoder Body) (l p : R) :
  frozen m ->
  ConstraintLossLayer.get_weights (last_layer m) = [l; p] ->
  exists m', round' m = Ok m' /\ frozen m' /\
    ConstraintLossLayer.get_weights (last_layer m') = [l + 1; p + 1].
Proof.
  intros F W. destruct (fit_keeps_weights m F) as [K [Fl Fp]].
  unfold round. rewrite K, W. cbn.
  eexists. split; [reflexivity|]. split; [split; assumption | reflexivity].
Qed.

Lemma rounds_schedule (b : Body)
  (cl_func : R -> R -> Tensor2 -> R -> Tensor1) (alpha : R) (r : nat) :
  exists m, rounds' r (initial Body b cl_func alpha) = Ok m /\ frozen m /\
    ConstraintLossLayer.get_weights (last_layer m) = [INR r; 1 + INR r].
Proof.
  induction r as [|r (m & E & F & W)].
  - eexists. split; [reflexivity|]. split; [split; reflexivity|].
    cbn. replace (1 + 0) with 1 by lra. reflexivity.
  - destruct (round_increments m _ _ F W) as (m' & E' & F' & W').
    exists m'. cbn [rounds]. rewrite E. cbn [rbind].
    split; [exact E'|]. split; [exact F'|].
    rewrite W', S_INR. replace (1 + (INR r + 1)) with (1 + INR r + 1) by lra.
    reflexivity.
Qed.

(** After the ten rounds the weights are 10 and 11. *)
Lemma training_loop_final_weights (b : Body)
  (cl_func : R -> R -> Tensor2 -> R -> Tensor1) (alpha : R) :
  exists m,
    training_loop Body optimizer_body optimizer_scalar
      (initial Body b cl_func alpha) = Ok m /\
    ConstraintLossLayer.get_weights (last_layer m) = [10; 11].
Proof.
  destruct (rounds_schedule b cl_func alpha 10) as (m & E & _ & W).
  exists m. split; [exact E|]. rewrite W.
  replace (INR 10) with 10 by (simpl; lra).
  replace (1 + 10) with 11 by lra. reflexivity.
Qed.

End Schedule.

(** C4: whatever the optimizer computes, at the start of round r
    (r = 0..9) of the loop started from the weights of [build], lambda_A is
    r and penalty_A is 1 + r; the [fit] call of that round leaves both
    unchanged, and the round ends with each increased by exactly 1. *)
Theorem lagrangian_schedule (Body : Type)
  (optimizer_body : Autoencoder Body -> Body)
  (optimizer_scalar : Autoencoder Body -> Weight R -> R)
  (b : Body) (cl_func : R -> R -> Tensor2 -> R -> Tensor1) (alpha : R)
  (r : nat) :
  (r <= 9)%nat ->
  exists m,
    rounds Body optimizer_body optimizer_scalar r (initial Body b cl_func alpha)
    = Ok m /\
    ConstraintLossLayer.get_weights (last_layer m) = [INR r; 1 + INR r] /\
    ConstraintLossLayer.get_weights
      (last_layer (fit Body optimizer_body optimizer_scalar m))
    = [INR r; 1 + INR r] /\
    exists m',
      round Body optimizer_body optimizer_scalar m = Ok m' /\
      ConstraintLossLayer.get_weights (last_layer m')
      = [INR r + 1; 1 + INR r + 1].
Proof.
  intros _.
  destruct (rounds_schedule Body optimizer_body optimizer_scalar
              b cl_func alpha r) as (m & E & F & W).
  exists m. split; [exact E|]. split; [exact W|]. split.
  - destruct (fit_keeps_weights Body optimizer_body optimizer_scalar m F)
      as [K _].
    rewrite K. exact W.
  - destruct (round_increments Body optimizer_body optimizer_scalar m _ _ F W)
      as (m' & E' & _ & W').
    exists m'. split; assumption.
Qed.

Lemma lagrangian_schedule_witness :
  exists m,
    rounds unit (fun _ => tt) (fun _ _ => 42) 3 (initial unit tt LagrangianLoss (1 / 50))
    = Ok m /\
    ConstraintLossLayer.get_weights (last_layer m) = [INR 3; 1 + INR 3] /\
    ConstraintLossLayer.get_weights
      (last_layer (fit unit (fun _ => tt) (fun _ _ => 42) m))
    = [INR 3; 1 + INR 3] /\
    exists m',
      round unit (fun _ => tt) (fun _ _ => 42) m = Ok m' /\
      ConstraintLossLayer.get_weights (last_layer m')
      = [INR 3 + 1; 1 + INR 3 + 1].
Proof.
  apply (lagrangian_schedule unit (fun _ => tt) (fun _ _ => 42) tt
           LagrangianLoss (1 / 50) 3).
  lia.
Defined.

(** ** The likelihoods *)

Lemma tf_log_finite (x : R) : 0 < x -> tf_log (finite x) = finite (ln x).
Proof. intros P. cbn. destruct (Rlt_dec 0 x); [reflexivity | contradiction]. Qed.

Lemma tf_log_nonfinite (x : R) : x <= 0 -> tf_log (finite x) = None.
Proof. intros P. cbn. destruct (Rlt_dec 0 x); [lra | reflexivity]. Qed.

Lemma fdiv_finite (x y : R) :
  y <> 0 -> (finite x / finite y)%fin = finite (x / y).
Proof. intros P. cbn. destruct (Req_dec_T y 0); [contradiction | reflexivity]. Qed.

Lemma tf_pow_finite (x e : R) :
  0 < x -> tf_pow (finite x) (finite e) = finite (Rpower x e).
Proof. intros P. cbn. destruct (Rlt_dec 0 x); [reflexivity | contradiction]. Qed.

Lemma tf_lgamma_finite (lgamma : R -> R) (x : R) :
  0 < x -> tf_lgamma lgamma (finite x) = finite (lgamma x).
Proof. intros P. cbn. destruct (Rle_dec x 0); [lra | reflexivity]. Qed.

Lemma Rpower_pos (x e : R) : 0 < Rpower x e.
Proof. unfold Rpower. apply exp_pos. Qed.

(** With a positive [eps] the negative-binomial log-likelihood is finite
    on non-negative inputs, under either value of [tf2_flag]. *)
Lemma NB_loglikelihood_finite (lgamma : R -> R) (tf2_flag : bool)
  (y mu r eps : R) :
  0 <= y -> 0 <= mu -> 0 <= r -> 0 < eps ->
  exists nb, NB_loglikelihood lgamma tf2_flag y (mu, r) eps = finite nb.
Proof.
  intros Py Pm Pr Pe. unfold NB_loglikelihood. cbn [fst snd].
  assert (0 < (mu + eps) / (r + mu + eps)) by (apply Rdiv_lt_0_compat; lra).
  assert (0 < (r + eps) / (r + mu + eps)) by (apply Rdiv_lt_0_compat; lra).
  destruct tf2_flag;
    rewrite !tf_lgamma_finite, !fdiv_finite, !tf_log_finite by lra;
    eexists; reflexivity.
Qed.

(** The argument of the logarithm in the structural-zero branch. *)
Lemma zero_branch_argument_pos (e pi mu r : R) :
  0 <= mu -> 0 < r -> 0 <= pi <= 1 -> 0 <= e ->
  0 < r / (r + mu + e) /\
  0 < e + pi + (1 - pi) * Rpower (r / (r + mu + e)) r.
Proof.
  intros Pm Pr Pp Pe. split; [apply Rdiv_lt_0_compat; lra|].
  pose proof (Rpower_pos (r / (r + mu + e)) r) as Pw.
  destruct (Rle_lt_dec 1 pi) as [L|L].
  - replace pi with 1 by lra. lra.
  - assert (0 < (1 - pi) * Rpower (r / (r + mu + e)) r)
      by (apply Rmult_lt_0_compat; lra).
    lra.
Qed.

Lemma zero_branch_finite (e pi mu r : R) :
  0 <= mu -> 0 < r -> 0 <= pi <= 1 -> 0 <= e ->
  zero_branch e pi mu r =
  finite (ln (e + pi + (1 - pi) * Rpower (r / (r + mu + e)) r)).
Proof.
  intros Pm Pr Pp Pe.
  destruct (zero_branch_argument_pos e pi mu r Pm Pr Pp Pe) as [Pq Pa].
  unfold zero_branch.
  rewrite fdiv_finite, tf_pow_finite by lra.
  change (tf_log (finite (e + pi + (1 - pi) * Rpower (r / (r + mu + e)) r))
          = finite (ln (e + pi + (1 - pi) * Rpower (r / (r + mu + e)) r))).
  apply tf_log_finite, Pa.
Qed.

Lemma tf_less_true (x y : R) : x < y -> tf_less x y = true.
Proof. intros L. unfold tf_less. destruct (Rlt_dec x y); [reflexivity | contradiction]. Qed.

Lemma tf_less_false (x y : R) : ~ x < y -> tf_less x y = false.
Proof. intros L. unfold tf_less. destruct (Rlt_dec x y); [contradiction | reflexivity]. Qed.

(** The two branches of [ZINB_loglikelihood], with the floor that
    [tf2_flag] selects. *)
Lemma ZINB_loglikelihood_cases (lgamma : R -> R) (tf2_flag : bool)
  (y mu r pi eps : R) :
  ZINB_loglikelihood lgamma tf2_flag y (mu, r, pi) eps =
  if tf_less y 1e-8
  then zero_branch (if tf2_flag then eps else 0) pi mu r
  else nonzero_branch (if tf2_flag then eps else 0) pi
         (NB_loglikelihood lgamma tf2_flag y (mu, r) eps).
Proof.
  unfold ZINB_loglikelihood, zero_branch, nonzero_branch, tf_where.
  cbn [fst snd]. destruct tf2_flag; cbn iota.
  - reflexivity.
  - replace (0 + pi) with pi by lra.
    replace (r + mu + 0) with (r + mu) by lra.
    replace (1 - pi + 0) with (1 - pi) by lra.
    reflexivity.
Qed.

Lemma nonzero_branch_finite (e pi nb : R) :
  0 < 1 - pi + e ->
  nonzero_branch e pi (finite nb) = finite (ln (1 - pi + e) + nb).
Proof.
  intros P. unfold nonzero_branch. rewrite (tf_log_finite _ P). reflexivity.
Qed.

Lemma tf_pow_zero_zero (x : R) :
  x = 0 -> tf_pow (finite x) (finite 0) = finite 1.
Proof.
  intros ->. cbn.
  destruct (Rlt_dec 0 0); [lra|].
  destruct (Req_dec_T 0 0); [reflexivity | contradiction].
Qed.

(** At dispersion 0 the power in the floored structural-zero branch is
    [pow(0, 0) = 1]. *)
Lemma zero_branch_finite_r0 (e pi mu : R) :
  0 <= mu -> 0 <= pi <= 1 -> 0 < e ->
  zero_branch e pi mu 0 = finite (ln (e + pi + (1 - pi) * 1)).
Proof.
  intros Pm Pp Pe. unfold zero_branch.
  rewrite fdiv_finite, tf_pow_zero_zero by (try unfold Rdiv; lra).
  change (tf_log (finite (e + pi + (1 - pi) * 1))
          = finite (ln (e + pi + (1 - pi) * 1))).
  apply tf_log_finite. lra.
Qed.

(** With [tf2_flag] set, every logarithm has a positive argument and the
    zero-inflated log-likelihood is finite on the whole domain
    y >= 0, mu >= 0, r >= 0, pi in [0, 1]. *)
Lemma ZINB_loglikelihood_tf2_finite (lgamma : R -> R) (y mu r pi eps : R) :
  0 <= y -> 0 <= mu -> 0 <= r -> 0 <= pi <= 1 -> 0 < eps ->
  exists v, ZINB_loglikelihood lgamma true y (mu, r, pi) eps = finite v.
Proof.
  intros Py Pm Pr Pp Pe. rewrite ZINB_loglikelihood_cases.
  destruct (tf_less y 1e-8).
  - destruct (Rle_lt_or_eq_dec 0 r Pr) as [L|<-].
    + rewrite zero_branch_finite by lra. eexists; reflexivity.
    + rewrite zero_branch_finite_r0 by lra. eexists; reflexivity.
  - destruct (NB_loglikelihood_finite lgamma true y mu r eps) as [nb ->];
      try lra.
    rewrite nonzero_branch_finite by lra. eexists; reflexivity.
Qed.

(** C6: for y >= 0, mu >= 0, r > 0 and pi in [0, 1] (and a positive eps):
    below the threshold 1e-8 [ZINB_loglikelihood] is the structural-zero
    branch, the finite value ln (e + pi + (1 - pi) * (r / (r + mu + e)) ^ r);
    otherwise it is the scaled negative-binomial branch
    log (1 - pi + e) + NB_loglikelihood(y, (mu, r)), finite as soon as
    1 - pi + e is positive.  The floor e is eps when [tf2_flag] is set and
    absent (0) when it is not. *)
Theorem ZINB_branch_selection (lgamma : R -> R) (tf2_flag : bool)
  (y mu r pi eps : R) :
  0 <= y -> 0 <= mu -> 0 < r -> 0 <= pi <= 1 -> 0 < eps ->
  let e := if tf2_flag then eps else 0 in
  (y < 1e-8 ->
   ZINB_loglikelihood lgamma tf2_flag y (mu, r, pi) eps
   = zero_branch e pi mu r /\
   zero_branch e pi mu r
   = finite (ln (e + pi + (1 - pi) * Rpower (r / (r + mu + e)) r))) /\
  (~ y < 1e-8 ->
   ZINB_loglikelihood lgamma tf2_flag y (mu, r, pi) eps
   = nonzero_branch e pi (NB_loglikelihood lgamma tf2_flag y (mu, r) eps) /\
   exists nb,
     NB_loglikelihood lgamma tf2_flag y (mu, r) eps = finite nb /\
     (0 < 1 - pi + e ->
      ZINB_loglikelihood lgamma tf2_flag y (mu, r, pi) eps
      = finite (ln (1 - pi + e) + nb))).
Proof.
  intros Py Pm Pr Pp Pe e.
  assert (Pe' : 0 <= e) by (subst e; destruct tf2_flag; lra).
  rewrite ZINB_loglikelihood_cases. fold e. split.
  - intros L. rewrite (tf_less_true _ _ L). split; [reflexivity|].
    apply zero_branch_finite; assumption.
  - intros L. rewrite (tf_less_false _ _ L). split; [reflexivity|].
    destruct (NB_loglikelihood_finite lgamma tf2_flag y mu r eps)
      as [nb Enb]; try lra.
    exists nb. split; [exact Enb|].
    intros P. rewrite Enb. apply nonzero_branch_finite, P.
Qed.

Lemma ZINB_branch_selection_witness :
  ZINB_loglikelihood (fun _ => 0) true 0 (2, 1, 1 / 2) 1e-10
  = zero_branch 1e-10 (1 / 2) 2 1 /\
  ZINB_loglikelihood (fun _ => 0) false 3 (2, 1, 1 / 2) 1e-10
  = nonzero_branch 0 (1 / 2)
      (NB_loglikelihood (fun _ => 0) false 3 (2, 1) 1e-10).
Proof.
  split.
  - apply (ZINB_branch_selection (fun _ => 0) true 0 2 1 (1 / 2) 1e-10);
      lra.
  - apply (ZINB_branch_selection (fun _ => 0) false 3 2 1 (1 / 2) 1e-10);
      lra.
Defined.

(** C3 fails when [tf2_flag] is not set: at y = 1, mu = 1, r = 1, pi = 1
    (and the default eps) the selected branch is log (1 - pi) + ..., with
    no floor, and log 0 is not finite. *)
Theorem ZINB_loglikelihood_tf1_not_finite (lgamma : R -> R) :
  ZINB_loglikelihood lgamma false 1 (1, 1, 1) 1e-10 = None.
Proof.
  rewrite ZINB_loglikelihood_cases, tf_less_false by lra.
  unfold nonzero_branch. rewrite tf_log_nonfinite by lra. reflexivity.
Qed.

(** * Further properties of the code *)

(** ** The acyclicity measure, continued *)

Lemma rsum_pos_term (n : nat) (f : nat -> R) :
  (forall k, (k < n)%nat -> 0 <= f k) -> 0 < rsum n f ->
  exists k, (k < n)%nat /\ 0 < f k.
Proof.
  induction n as [|n IH]; intros P S; simpl in S; [lra|].
  destruct (Rlt_dec 0 (f n)) as [L|L].
  - exists n. split; [lia | exact L].
  - assert (f n = 0) by (assert (0 <= f n) by (apply P; lia); lra).
    destruct IH as (k & K & Pk); [intros; apply P; lia | lra |].
    exists k. split; [lia | exact Pk].
Qed.

Lemma walk_concat (A : Tensor2) (l1 l2 : list nat) : forall (i k j : nat),
  walk A i l1 k -> walk A k l2 j -> walk A i (l1 ++ k :: l2) j.
Proof.
  induction l1 as [|a l1 IH]; intros i k j W1 W2; simpl in *.
  - auto.
  - destruct W1 as [E W1]. split; [exact E | apply IH; assumption].
Qed.

Lemma DAG_constraint_ge_0 (A : Tensor2) (alpha : R) :
  rows A = cols A -> 0 < alpha -> 0 <= DAG_constraint A alpha.
Proof.
  intros Sq Pa.
  change (DAG_constraint A alpha)
    with (tf_linalg_trace (squarings (rows A - 1) (DAG_base A alpha))
          - INR (rows A)).
  destruct (squarings_shape A alpha Sq (rows A - 1)) as [Hr Hc].
  unfold tf_linalg_trace. rewrite Hr, Hc, Nat.min_id.
  assert (rsum (rows A) (fun _ => 1)
          <= rsum (rows A)
               (fun i => entry (squarings (rows A - 1) (DAG_base A alpha)) i i)).
  { apply rsum_le. intros k K.
    apply (squarings_dominate A alpha Sq Pa (rows A - 1)). exact K. }
  rewrite rsum_const in H. lra.
Qed.

(** X1: for a square matrix and a positive alpha the acyclicity measure is
    never negative. *)
Theorem DAG_constraint_nonneg (A : Tensor2) (alpha : R) :
  rows A = cols A -> 0 < alpha -> 0 <= DAG_constraint A alpha.
Proof. exact (DAG_constraint_ge_0 A alpha). Qed.

Lemma DAG_constraint_nonneg_witness :
  0 <= DAG_constraint two_cycle_3 (1 / 3).
Proof.
  apply (DAG_constraint_nonneg two_cycle_3 (1 / 3)); [reflexivity | lra].
Defined.

Section Acyclic.

Variables (A : Tensor2) (alpha : R).
Hypothesis SqA : rows A = cols A.
Hypothesis Pa : 0 < alpha.
Hypothesis Acy : acyclic A.

Local Abbreviation n := (rows A).
Local Abbreviation X t := (squarings t (DAG_base A alpha)).

Lemma acyclic_no_loop (i : nat) : (i < n)%nat -> entry A i i = 0.
Proof.
  intros I. destruct (Req_dec_T (entry A i i) 0) as [E|E]; [exact E|].
  exfalso. apply (Acy i []); [repeat constructor; exact I | exact E].
Qed.

(** Without closed walks the squarings keep a unit diagonal, and a
    positive entry off the diagonal comes from a walk. *)
Lemma squarings_acyclic (t : nat) : forall i j,
  (i < n)%nat -> (j < n)%nat ->
  entry (X t) i i = 1 /\
  (i <> j -> 0 < entry (X t) i j ->
   exists l, Forall (fun k => (k < n)%nat) l /\ walk A i l j).
Proof.
  induction t as [|t IH]; intros i j I J.
  - split.
    + simpl. rewrite Nat.eqb_refl, (acyclic_no_loop i I). lra.
    + intros D P. exists []. split; [constructor|].
      simpl in P |- *. destruct (Nat.eqb_spec i j); [contradiction|].
      intros Z. unfold edge in Z. rewrite Z in P. lra.
  - pose proof (squarings_shape A alpha SqA t) as [Hr Hc].
    pose proof (squarings_dominate A alpha SqA Pa t) as [NN _].
    assert (Off : forall a b, (a < n)%nat -> (b < n)%nat -> a <> b ->
                  0 < entry (X t) a b ->
                  exists l, Forall (fun k => (k < n)%nat) l /\ walk A a l b).
    { intros a b Ia Ib. apply (IH a b Ia Ib). }
    split.
    + change (entry (tf_matmul (X t) (X t)) i i = 1). simpl entry at 1.
      rewrite Hc, (rsum_single n _ i I).
      * destruct (IH i i I I) as [-> _]. lra.
      * intros k K D.
        destruct (Rle_lt_or_eq_dec _ _ (NN i k I K)) as [Pik|<-]; [|lra].
        destruct (Rle_lt_or_eq_dec _ _ (NN k i K I)) as [Pki|<-]; [|lra].
        exfalso.
        destruct (Off i k I K (not_eq_sym D) Pik) as (l1 & F1 & W1).
        destruct (Off k i K I D Pki) as (l2 & F2 & W2).
        apply (Acy i (l1 ++ k :: l2)).
        -- constructor; [exact I|]. apply Forall_app. split; [exact F1|].
           constructor; assumption.
        -- apply walk_concat; assumption.
    + intros D P.
      change (0 < entry (tf_matmul (X t) (X t)) i j) in P.
      simpl entry in P. rewrite Hc in P.
      destruct (rsum_pos_term n _
                  (fun k K => Rmult_le_pos _ _ (NN i k I K) (NN k j K J)) P)
        as (k & K & Pk).
      assert (Pik : 0 < entry (X t) i k).
      { destruct (Rle_lt_or_eq_dec _ _ (NN i k I K)) as [L|E]; [exact L|].
        rewrite <- E in Pk. lra. }
      assert (Pkj : 0 < entry (X t) k j).
      { destruct (Rle_lt_or_eq_dec _ _ (NN k j K J)) as [L|E]; [exact L|].
        rewrite <- E in Pk. lra. }
      destruct (Nat.eq_dec i k) as [<-|Dik]; [apply Off; assumption|].
      destruct (Nat.eq_dec k j) as [->|Dkj]; [apply Off; assumption|].
      destruct (Off i k I K Dik Pik) as (l1 & F1 & W1).
      destruct (Off k j K J Dkj Pkj) as (l2 & F2 & W2).
      exists (l1 ++ k :: l2)%list. split.
      * apply Forall_app. split; [exact F1|]. constructor; assumption.
      * apply walk_concat; assumption.
Qed.

Lemma DAG_constraint_acyclic_zero : DAG_constraint A alpha = 0.
Proof.
  change (DAG_constraint A alpha)
    with (tf_linalg_trace (X (n - 1)) - INR n).
  destruct (squarings_shape A alpha SqA (n - 1)) as [Hr Hc].
  unfold tf_linalg_trace. rewrite Hr, Hc, Nat.min_id.
  rewrite (rsum_ext n _ (fun _ => 1)); [rewrite rsum_const; lra|].
  intros k K. apply (squarings_acyclic (n - 1) k k K K).
Qed.

End Acyclic.

Lemma DAG_constraint_eq_0_iff (A : Tensor2) (alpha : R) :
  rows A = cols A -> 0 < alpha ->
  (DAG_constraint A alpha = 0 <-> acyclic A).
Proof.
  intros Sq Pa. split.
  - intros Z v l F W.
    destruct (closed_walk_has_cycle A (List.length l) v l (le_n _) F W)
      as [c Cyc].
    pose proof (DAG_constraint_cycle A alpha Sq Pa c Cyc). lra.
  - intros Acy. apply DAG_constraint_acyclic_zero; assumption.
Qed.

(** Over exact arithmetic:
    for a square matrix and a positive alpha, [DAG_constraint] is zero
    exactly when the graph of the matrix has no closed walk. *)
Theorem DAG_constraint_zero_iff_acyclic (A : Tensor2) (alpha : R) :
  rows A = cols A -> 0 < alpha ->
  (DAG_constraint A alpha = 0 <-> acyclic A).
Proof. exact (DAG_constraint_eq_0_iff A alpha). Qed.

Lemma DAG_constraint_zero_iff_acyclic_witness :
  DAG_constraint upper_3 (1 / 3) = 0 <-> acyclic upper_3.
Proof.
  apply (DAG_constraint_zero_iff_acyclic upper_3 (1 / 3));
    [reflexivity | lra].
Defined.

(** Over exact arithmetic, for tensors of matching shapes:
    the smallest matrices: on the empty matrix the measure is 0, and on
    a 1 x 1 matrix, where no squaring takes place, it is alpha times the
    square of the entry. *)
Theorem DAG_constraint_small (A : Tensor2) (alpha : R) :
  (rows A = 0%nat -> DAG_constraint A alpha = 0) /\
  (rows A = 1%nat ->
   DAG_constraint A alpha = alpha * (entry A 0 0 * entry A 0 0)).
Proof.
  split; intros E; unfold DAG_constraint; rewrite E;
    unfold tf_linalg_trace; simpl; lra.
Qed.

(** ** The Lagrangian loss *)

(** Over exact arithmetic:
    for a square matrix, alpha > 0, lambda_A >= 0 and penalty_A > 0 the
    loss has one entry per node, all equal to
    lambda_A * h + 0.5 * penalty_A * h^2 with h = DAG_constraint(A, alpha);
    no entry is negative, and an entry is 0 exactly when the graph of A
    has no closed walk. *)
Theorem LagrangianLoss_sign (lambda_A penalty_A : R) (A : Tensor2) (alpha : R) :
  rows A = cols A -> 0 < alpha -> 0 <= lambda_A -> 0 < penalty_A ->
  len (LagrangianLoss lambda_A penalty_A A alpha) = rows A /\
  forall i,
    item (LagrangianLoss lambda_A penalty_A A alpha) i
    = lambda_A * DAG_constraint A alpha
      + 0.5 * penalty_A * (DAG_constraint A alpha * DAG_constraint A alpha) /\
    0 <= item (LagrangianLoss lambda_A penalty_A A alpha) i /\
    (item (LagrangianLoss lambda_A penalty_A A alpha) i = 0 <-> acyclic A).
Proof.
  intros Sq Pa Pl Pp. split; [reflexivity|]. intros i.
  pose proof (DAG_constraint_ge_0 A alpha Sq Pa) as H.
  pose proof (DAG_constraint_eq_0_iff A alpha Sq Pa) as Z.
  simpl. set (h := DAG_constraint A alpha) in *.
  assert (0 <= lambda_A * h) by (apply Rmult_le_pos; assumption).
  assert (0 <= h * h) by nra.
  assert (0 <= penalty_A * (h * h)) by (apply Rmult_le_pos; lra).
  split; [lra|]. split; [lra|].
  rewrite <- Z. split.
  - intros E. assert (penalty_A * (h * h) = 0) by lra.
    destruct (Rmult_integral _ _ H3) as [|Hh]; [lra|].
    destruct (Rmult_integral _ _ Hh); assumption.
  - intros ->. lra.
Qed.

Lemma LagrangianLoss_sign_witness :
  len (LagrangianLoss 2 3 two_cycle_3 (1 / 3)) = rows two_cycle_3 /\
  forall i,
    item (LagrangianLoss 2 3 two_cycle_3 (1 / 3)) i
    = 2 * DAG_constraint two_cycle_3 (1 / 3)
      + 0.5 * 3 * (DAG_constraint two_cycle_3 (1 / 3)
                   * DAG_constraint two_cycle_3 (1 / 3)) /\
    0 <= item (LagrangianLoss 2 3 two_cycle_3 (1 / 3)) i /\
    (item (LagrangianLoss 2 3 two_cycle_3 (1 / 3)) i = 0
     <-> acyclic two_cycle_3).
Proof.
  apply (LagrangianLoss_sign 2 3 two_cycle_3 (1 / 3));
    [reflexivity | lra | lra | lra].
Defined.

(** ** The training loop, continued *)

Section Rounds.

Variable Body : Type.
Variable optimizer_body : Autoencoder Body -> Body.
Variable optimizer_scalar : Autoencoder Body -> Weight R -> R.

Local Abbreviation fit' := (fit Body optimizer_body optimizer_scalar).
Local Abbreviation round' := (round Body optimizer_body optimizer_scalar).
Local Abbreviation rounds' := (rounds Body optimizer_body optimizer_scalar).

Lemma apply_gradients_flags (m : Autoencoder Body) (w : Weight R) :
  name (apply_gradients Body optimizer_scalar m w) = name w /\
  trainable (apply_gradients Body optimizer_scalar m w) = trainable w.
Proof. destruct w as [nm v [|]]; split; reflexivity. Qed.

(** With [fit] taken as always returning:
    a round never raises, whatever the model and the optimizer: it
    returns the model of the [fit] call with 1 added to the value of each
    of the two weights of the last layer, and leaves the loss function,
    alpha and the names and trainable flags of the weights as they were. *)
Theorem round_never_raises (m : Autoencoder Body) :
  exists m',
    round' m = Ok m' /\
    body m' = optimizer_body m /\
    ConstraintLossLayer.get_weights (last_layer m')
    = map (fun v => v + 1) (ConstraintLossLayer.get_weights (last_layer (fit' m))) /\
    ConstraintLossLayer.cl (last_layer m') = ConstraintLossLayer.cl (last_layer m) /\
    ConstraintLossLayer.alpha (last_layer m')
    = ConstraintLossLayer.alpha (last_layer m) /\
    name (ConstraintLossLayer.lambda_A (last_layer m'))
    = name (ConstraintLossLayer.lambda_A (last_layer m)) /\
    name (ConstraintLossLayer.penalty_A (last_layer m'))
    = name (ConstraintLossLayer.penalty_A (last_layer m)) /\
    trainable (ConstraintLossLayer.lambda_A (last_layer m'))
    = trainable (ConstraintLossLayer.lambda_A (last_layer m)) /\
    trainable (ConstraintLossLayer.penalty_A (last_layer m'))
    = trainable (ConstraintLossLayer.penalty_A (last_layer m)).
Proof.
  eexists. split; [reflexivity|]. cbn.
  destruct (apply_gradients_flags m (ConstraintLossLayer.lambda_A (last_layer m)))
    as [Nl Tl].
  destruct (apply_gradients_flags m (ConstraintLossLayer.penalty_A (last_layer m)))
    as [Np Tp].
  repeat split; assumption.
Qed.

(** The model after [r] rounds from the weights of [build]. *)
Lemma rounds_state (b : Body)
  (cl_func : R -> R -> Tensor2 -> R -> Tensor1) (alpha : R) (r : nat) :
  exists m, rounds' r (initial Body b cl_func alpha) = Ok m /\
    last_layer m =
    {| ConstraintLossLayer.cl := cl_func;
       ConstraintLossLayer.alpha := alpha;
       ConstraintLossLayer.lambda_A := add_weight "lambda_A" (INR r) false;
       ConstraintLossLayer.penalty_A := add_weight "penalty_A" (1 + INR r) false |}.
Proof.
  induction r as [|r (m & E & L)].
  - eexists. split; [reflexivity|]. cbn.
    replace (1 + 0) with 1 by lra. reflexivity.
  - cbn [rounds]. rewrite E. cbn [rbind].
    eexists. split; [reflexivity|]. cbn -[INR]. rewrite L. cbn -[INR].
    rewrite S_INR. replace (1 + (INR r + 1)) with (1 + INR r + 1) by lra.
    reflexivity.
Qed.

(** X6: the constraint loss of round r.  After r rounds of the loop started
    from [build] with [LagrangianLoss], a call of the last layer on (A,
    layers) forwards the layers and registers
    [LagrangianLoss(r, 1 + r, A, alpha)]: the multiplier r and the penalty
    weight 1 + r of the schedule. *)
Theorem constraint_loss_at_round (b : Body) (alpha : R) (r : nat) :
  exists m,
    rounds' r (initial Body b LagrangianLoss alpha) = Ok m /\
    forall (A : Tensor2) (layers : list Tensor2) (losses : list Tensor1),
      ConstraintLossLayer.call (last_layer m) (A, layers) losses
      = (layers,
         (losses ++ [LagrangianLoss (INR r) (1 + INR r) A alpha])%list).
Proof.
  destruct (rounds_state b LagrangianLoss alpha r) as (m & E & L).
  exists m. split; [exact E|]. intros A layers losses.
  unfold ConstraintLossLayer.call. rewrite L. reflexivity.
Qed.

End Rounds.

(** Over exact arithmetic:
    the constraint loss does not decrease from one round to a later
    one: for a square matrix A with alpha > 0 and rounds r <= r', every
    entry of [LagrangianLoss(r, 1 + r, A, alpha)] is at most the entry of
    [LagrangianLoss(r', 1 + r', A, alpha)]. *)
Theorem LagrangianLoss_grows_with_rounds (A : Tensor2) (alpha : R) (r r' : nat) :
  rows A = cols A -> 0 < alpha -> (r <= r')%nat ->
  forall i,
    item (LagrangianLoss (INR r) (1 + INR r) A alpha) i
    <= item (LagrangianLoss (INR r') (1 + INR r') A alpha) i.
Proof.
  intros Sq Pa L i. simpl.
  pose proof (DAG_constraint_ge_0 A alpha Sq Pa) as H.
  set (h := DAG_constraint A alpha) in *.
  assert (INR r <= INR r') by (apply le_INR, L).
  assert (0 <= h * h) by nra.
  assert (INR r * h <= INR r' * h) by (apply Rmult_le_compat_r; assumption).
  assert (INR r * (h * h) <= INR r' * (h * h))
    by (apply Rmult_le_compat_r; assumption).
  lra.
Qed.

Lemma LagrangianLoss_grows_with_rounds_witness :
  item (LagrangianLoss (INR 2) (1 + INR 2) two_cycle_3 (1 / 3)) 0
  <= item (LagrangianLoss (INR 5) (1 + INR 5) two_cycle_3 (1 / 3)) 0.
Proof.
  apply (LagrangianLoss_grows_with_rounds two_cycle_3 (1 / 3) 2 5);
    [reflexivity | lra | lia].
Defined.

(** ** The KL divergence, continued *)

Lemma kl_term_split (m1 lv1 m2 lv2 : R) :
  kl_term m1 lv1 m2 lv2 =
  1 / 2 * (exp (lv1 - lv2) - (1 + (lv1 - lv2)))
  + 1 / 2 * exp (- lv2) * ((m1 - m2) * (m1 - m2)).
Proof.
  assert (E : exp (lv1 - lv2) = exp lv1 * exp (- lv2))
    by (unfold Rminus; apply exp_plus).
  unfold kl_term. rewrite E.
  replace (-0.5) with (- (1 / 2)) by lra.
  replace 0.5 with (1 / 2) by lra. ring.
Qed.

Lemma kl_term_ge_0 (m1 lv1 m2 lv2 : R) : 0 <= kl_term m1 lv1 m2 lv2.
Proof.
  rewrite kl_term_split.
  pose proof (exp_ineq1_le (lv1 - lv2)).
  pose proof (exp_pos (- lv2)).
  assert (0 <= (m1 - m2) * (m1 - m2)) by exact (Rle_0_sqr (m1 - m2)).
  assert (0 <= exp (- lv2) * ((m1 - m2) * (m1 - m2)))
    by (apply Rmult_le_pos; lra).
  lra.
Qed.

Lemma kl_term_eq_0 (m1 lv1 m2 lv2 : R) :
  kl_term m1 lv1 m2 lv2 = 0 <-> m1 = m2 /\ lv1 = lv2.
Proof.
  split.
  - rewrite kl_term_split. intros Z.
    pose proof (exp_ineq1_le (lv1 - lv2)) as Hle.
    pose proof (exp_pos (- lv2)) as He.
    assert (Hs : 0 <= (m1 - m2) * (m1 - m2)) by exact (Rle_0_sqr (m1 - m2)).
    assert (Hp : 0 <= exp (- lv2) * ((m1 - m2) * (m1 - m2)))
      by (apply Rmult_le_pos; lra).
    assert (Hz : exp (- lv2) * ((m1 - m2) * (m1 - m2)) = 0) by lra.
    assert (Hu : exp (lv1 - lv2) = 1 + (lv1 - lv2)) by lra.
    split.
    + destruct (Rmult_integral _ _ Hz) as [|Hm]; [lra|].
      destruct (Rmult_integral _ _ Hm); lra.
    + destruct (Req_dec_T (lv1 - lv2) 0) as [|D]; [lra|].
      pose proof (exp_ineq1 (lv1 - lv2) D). lra.
  - intros [-> ->]. apply kl_term_self.
Qed.

(** Over exact arithmetic:
    each entry of [gaussian_kl] is non-negative, and it is zero exactly
    where the two Gaussians have the same mean and the same log-variance. *)
Theorem gaussian_kl_nonneg (mu_1 logvar_1 mu_2 logvar_2 : Tensor2) (i j : nat) :
  0 <= entry (KLDivergenceLayer.gaussian_kl (mu_1, logvar_1) (mu_2, logvar_2)) i j /\
  (entry (KLDivergenceLayer.gaussian_kl (mu_1, logvar_1) (mu_2, logvar_2)) i j = 0
   <-> entry mu_1 i j = entry mu_2 i j /\
       entry logvar_1 i j = entry logvar_2 i j).
Proof.
  rewrite gaussian_kl_entry. split; [apply kl_term_ge_0 | apply kl_term_eq_0].
Qed.

(** Over exact arithmetic:
    with beta >= 0 and at least one latent dimension, no entry of the
    loss that the KL layer registers is negative. *)
Theorem KL_layer_loss_nonneg
  (self : KLDivergenceLayer.t) (z_mean z_log_var z : Tensor2)
  (losses : list Tensor1) :
  0 <= KLDivergenceLayer.beta self -> (0 < cols z_mean)%nat ->
  exists loss,
    snd (KLDivergenceLayer.call self (z_mean, z_log_var, z) losses)
    = (losses ++ [loss])%list /\
    forall b, 0 <= item loss b.
Proof.
  intros Pb Pc. eexists. split; [reflexivity|].
  intros b. cbn. apply Rmult_le_pos; [exact Pb|].
  apply Rmult_le_pos.
  - apply rsum_nonneg. intros d _.
    apply (kl_term_ge_0 (entry z_mean b d) (entry z_log_var b d)
             (KLDivergenceLayer.mean self * 1)
             (KLDivergenceLayer.log_var self * 1)).
  - left. apply Rinv_0_lt_compat, lt_0_INR, Pc.
Qed.

Lemma KL_layer_loss_nonneg_witness :
  exists loss,
    snd (KLDivergenceLayer.call unit_kl_layer
           (ones_1x2, zeros_1x2, ones_1x2) [])
    = ([] ++ [loss])%list /\
    forall b, 0 <= item loss b.
Proof.
  apply (KL_layer_loss_nonneg unit_kl_layer ones_1x2 zeros_1x2 ones_1x2 []);
    simpl; [lra | lia].
Defined.

(** ** Reparameterized sampling *)

(** Over exact arithmetic:
    [sampling] is [mean + exp(0.5 * log_var) * epsilon] at every
    element; zero noise returns the mean, and the noise is recovered from
    the sample as (sample - mean) * exp(-0.5 * log_var), so for fixed mean
    and log-variance distinct noise gives distinct samples. *)
Theorem sampling_affine_in_noise (mean log_var epsilon : Tensor2) (i j : nat) :
  entry (SampleLayer.sampling (mean, log_var) epsilon) i j
  = entry mean i j + exp (0.5 * entry log_var i j) * entry epsilon i j /\
  (entry epsilon i j = 0 ->
   entry (SampleLayer.sampling (mean, log_var) epsilon) i j = entry mean i j) /\
  (entry (SampleLayer.sampling (mean, log_var) epsilon) i j - entry mean i j)
  * exp (- (0.5 * entry log_var i j))
  = entry epsilon i j.
Proof.
  simpl. split; [reflexivity|]. split.
  - intros ->. lra.
  - rewrite exp_Ropp.
    assert (exp (0.5 * entry log_var i j) <> 0) by (apply Rgt_not_eq, exp_pos).
    field. assumption.
Qed.

(** ** The Gaussian-equivalent loss *)

(** X11: [MeanSquaredError] does not depend on [eps], is symmetric in its
    two tensors, is never positive, and is zero wherever the two tensors
    agree. *)
Theorem MeanSquaredError_sign (y mu : Tensor2) (eps eps' : R) (i j : nat) :
  entry (MeanSquaredError y mu eps) i j = entry (MeanSquaredError y mu eps') i j /\
  entry (MeanSquaredError y mu eps) i j = entry (MeanSquaredError mu y eps) i j /\
  entry (MeanSquaredError y mu eps) i j <= 0 /\
  (entry y i j = entry mu i j -> entry (MeanSquaredError y mu eps) i j = 0).
Proof.
  simpl. split; [reflexivity|]. split; [ring|].
  pose proof (Rle_0_sqr (entry y i j - entry mu i j)) as S. unfold Rsqr in S.
  split; [lra|]. intros ->. ring.
Qed.

(** ** The likelihoods, continued *)

Lemma NB_loglikelihood_value (lgamma : R -> R) (tf2_flag : bool)
  (y mu r eps : R) :
  0 <= y -> 0 <= mu -> 0 <= r -> 0 < eps ->
  NB_loglikelihood lgamma tf2_flag y (mu, r) eps
  = finite (lgamma (y + r + eps) - lgamma (r + eps) - lgamma (y + 1)
            + (y * ln ((mu + eps) / (r + mu + eps))
               + r * ln ((r + eps) / (r + mu + eps)))).
Proof.
  intros Py Pm Pr Pe. unfold NB_loglikelihood. cbn [fst snd].
  assert (0 < (mu + eps) / (r + mu + eps)) by (apply Rdiv_lt_0_compat; lra).
  assert (0 < (r + eps) / (r + mu + eps)) by (apply Rdiv_lt_0_compat; lra).
  destruct tf2_flag;
    rewrite !tf_lgamma_finite, !fdiv_finite, !tf_log_finite by lra;
    reflexivity.
Qed.

(** X12: [NB_loglikelihood] performs the same computation under both
    values of [tf2_flag], and on the range of the decoder's parameters
    (a count and a mean from 0 to 1e6, a dispersion from 0 to 1e4, the
    boundary 0 included) with eps between 1e-12 and 1 its value is finite:
    lgamma(y+r+eps) - lgamma(r+eps) - lgamma(y+1)
    + y * ln((mu+eps)/(r+mu+eps)) + r * ln((r+eps)/(r+mu+eps)). *)
Theorem NB_loglikelihood_floored (lgamma : R -> R) (tf2_flag : bool)
  (y mu r eps : R) :
  NB_loglikelihood lgamma true y (mu, r) eps
  = NB_loglikelihood lgamma false y (mu, r) eps /\
  (0 <= y <= 1e6 -> 0 <= mu <= 1e6 -> 0 <= r <= 1e4 -> 1e-12 <= eps <= 1 ->
   NB_loglikelihood lgamma tf2_flag y (mu, r) eps
   = finite (lgamma (y + r + eps) - lgamma (r + eps) - lgamma (y + 1)
             + (y * ln ((mu + eps) / (r + mu + eps))
                + r * ln ((r + eps) / (r + mu + eps))))).
Proof.
  split; [reflexivity|]. intros Py Pm Pr Pe.
  apply NB_loglikelihood_value; lra.
Qed.

Lemma NB_loglikelihood_floored_witness :
  NB_loglikelihood (fun _ => 0) false 3 (0, 0) 1e-10
  = finite (0 - 0 - 0
            + (3 * ln ((0 + 1e-10) / (0 + 0 + 1e-10))
               + 0 * ln ((0 + 1e-10) / (0 + 0 + 1e-10)))).
Proof.
  apply (NB_loglikelihood_floored (fun _ => 0) false 3 0 0 1e-10); lra.
Defined.

(** X13: with [tf2_flag] set, [ZINB_loglikelihood] is finite on the range
    of the decoder's parameters: a count and a mean from 0 to 1e6, a
    dispersion from 0 to 1e4, pi in [0, 1] and eps between 1e-12 and 1,
    the boundary values y = 0, r = 0, mu = 0, pi = 0 and pi = 1
    included. *)
Theorem ZINB_loglikelihood_tf2_floored (lgamma : R -> R) (y mu r pi eps : R) :
  0 <= y <= 1e6 -> 0 <= mu <= 1e6 -> 0 <= r <= 1e4 -> 0 <= pi <= 1 ->
  1e-12 <= eps <= 1 ->
  exists v, ZINB_loglikelihood lgamma true y (mu, r, pi) eps = finite v.
Proof.
  intros Py Pm Pr Pp Pe. apply ZINB_loglikelihood_tf2_finite; lra.
Qed.

Lemma ZINB_loglikelihood_tf2_floored_witness :
  (exists v, ZINB_loglikelihood (fun _ => 0) true 0 (0, 0, 0) 1e-10 = finite v) /\
  (exists v, ZINB_loglikelihood (fun _ => 0) true 1 (1, 1, 1) 1e-10 = finite v).
Proof.
  split.
  - apply (ZINB_loglikelihood_tf2_floored (fun _ => 0) 0 0 0 0 1e-10); lra.
  - apply (ZINB_loglikelihood_tf2_floored (fun _ => 0) 1 1 1 1 1e-10); lra.
Defined.

(** X14: without [tf2_flag], on the range of the decoder's parameters (a
    mean from 0 to 1e6, a dispersion from 0 to 1e4, pi in [0, 1]) with eps
    between 1e-12 and 1, the zero-inflated log-likelihood of a count at or
    above the threshold (1e-8 <= y <= 1e6) is finite exactly when
    pi < 1. *)
Theorem ZINB_loglikelihood_tf1_finite_iff (lgamma : R -> R)
  (y mu r pi eps : R) :
  1e-8 <= y <= 1e6 -> 0 <= mu <= 1e6 -> 0 <= r <= 1e4 -> 0 <= pi <= 1 ->
  1e-12 <= eps <= 1 ->
  ((exists v, ZINB_loglikelihood lgamma false y (mu, r, pi) eps = finite v)
   <-> pi < 1).
Proof.
  intros Py Pm Pr Pp Pe.
  rewrite ZINB_loglikelihood_cases, tf_less_false by lra.
  rewrite (NB_loglikelihood_value lgamma false y mu r eps) by lra.
  split.
  - intros [v E]. destruct (Rlt_dec pi 1) as [L|L]; [exact L|].
    unfold nonzero_branch in E. rewrite tf_log_nonfinite in E by lra.
    discriminate E.
  - intros L. rewrite nonzero_branch_finite by lra. eexists; reflexivity.
Qed.

Lemma ZINB_loglikelihood_tf1_finite_iff_witness :
  (exists v, ZINB_loglikelihood (fun _ => 0) false 2 (1, 1, 1 / 2) 1e-10
             = finite v)
  <-> 1 / 2 < 1.
Proof.
  apply (ZINB_loglikelihood_tf1_finite_iff (fun _ => 0) 2 1 1 (1 / 2) 1e-10);
    lra.
Defined.

(** X15: without [tf2_flag] and with zero-inflation probability 0, a count
    at or above the threshold has the negative-binomial log-likelihood
    itself: log(1 - 0) adds nothing. *)
Theorem ZINB_loglikelihood_tf1_pi_0 (lgamma : R -> R) (y mu r eps : R) :
  1e-8 <= y ->
  ZINB_loglikelihood lgamma false y (mu, r, 0) eps
  = NB_loglikelihood lgamma false y (mu, r) eps.
Proof.
  intros Py. rewrite ZINB_loglikelihood_cases, tf_less_false by lra.
  unfold nonzero_branch. rewrite tf_log_finite by lra.
  replace (1 - 0 + 0) with 1 by lra. rewrite ln_1.
  destruct (NB_loglikelihood lgamma false y (mu, r) eps) as [v|];
    [|reflexivity].
  cbn. rewrite Rplus_0_l. reflexivity.
Qed.

Lemma ZINB_loglikelihood_tf1_pi_0_witness :
  ZINB_loglikelihood (fun _ => 0) false 4 (2, 1, 0) 1e-10
  = NB_loglikelihood (fun _ => 0) false 4 (2, 1) 1e-10.
Proof.
  apply (ZINB_loglikelihood_tf1_pi_0 (fun _ => 0) 4 2 1 1e-10). lra.
Defined.

(** ** The decoder's output activations *)

Lemma tf_clip_by_value_range (x lo hi : R) :
  lo <= hi -> lo <= tf_clip_by_value x lo hi <= hi.
Proof.
  intros L. unfold tf_clip_by_value, Rmin, Rmax.
  destruct (Rle_dec x lo); destruct (Rle_dec _ hi); lra.
Qed.

Lemma tf_clip_by_value_inside (x lo hi : R) :
  lo <= x <= hi -> tf_clip_by_value x lo hi = x.
Proof.
  intros L. unfold tf_clip_by_value, Rmin, Rmax.
  destruct (Rle_dec x lo); destruct (Rle_dec _ hi); lra.
Qed.

Lemma sigmoid_range (a : R) : 0 < sigmoid a < 1.
Proof.
  unfold sigmoid. pose proof (exp_pos (- a)) as P.
  split.
  - apply Rdiv_lt_0_compat; lra.
  - apply Rmult_lt_reg_r with (1 + exp (- a)); [lra|].
    unfold Rdiv. rewrite Rmult_assoc, Rinv_l by lra. lra.
Qed.

(** Over exact arithmetic:
    the three output activations keep the decoder's parameters in
    range: [MeanAct] in [1e-5, 1e6], [DispAct] in [1e-4, 1e4], the sigmoid
    strictly between 0 and 1; inside its range [MeanAct] is the
    exponential and [DispAct] the softplus. *)
Theorem output_activation_ranges (a : R) :
  1e-5 <= MeanAct a <= 1e6 /\
  1e-4 <= DispAct a <= 1e4 /\
  0 < sigmoid a < 1 /\
  (1e-5 <= exp a <= 1e6 -> MeanAct a = exp a) /\
  (1e-4 <= tf_nn_softplus a <= 1e4 -> DispAct a = tf_nn_softplus a).
Proof.
  split; [apply tf_clip_by_value_range; lra|].
  split; [apply tf_clip_by_value_range; lra|].
  split; [apply sigmoid_range|].
  split; apply tf_clip_by_value_inside.
Qed.

(** X17: for all finite values a, b, c that the three heads of the
    decoder compute before their activations, the activated parameters
    lie in the domain on which the floored likelihood is finite: with
    [tf2_flag] set, eps between 1e-12 and 1 and a count from 0 to 1e6,
    [ZINB_loglikelihood(y, [MeanAct a, DispAct b, sigmoid c])] is
    finite. *)
Theorem decoder_parameters_give_finite_loss (lgamma : R -> R)
  (y a b c eps : R) :
  0 <= y <= 1e6 -> 1e-12 <= eps <= 1 ->
  exists v,
    ZINB_loglikelihood lgamma true y (MeanAct a, DispAct b, sigmoid c) eps
    = finite v.
Proof.
  intros Py Pe.
  pose proof (tf_clip_by_value_range (exp a) 1e-5 1e6) as Ha.
  pose proof (tf_clip_by_value_range (tf_nn_softplus b) 1e-4 1e4) as Hb.
  pose proof (sigmoid_range c) as Hc.
  apply ZINB_loglikelihood_tf2_finite; unfold MeanAct, DispAct; lra.
Qed.

Lemma decoder_parameters_give_finite_loss_witness :
  exists v,
    ZINB_loglikelihood (fun _ => 0) true 3 (MeanAct 2, DispAct (-1), sigmoid 0)
      1e-10
    = finite v.
Proof.
  apply (decoder_parameters_give_finite_loss (fun _ => 0) 3 2 (-1) 0 1e-10);
    lra.
Defined.

(** ** The structural transforms, continued *)

Lemma rsum_minus (n : nat) (f g : nat -> R) :
  rsum n (fun k => f k - g k) = rsum n f - rsum n g.
Proof. induction n as [|n IH]; simpl; [lra | rewrite IH; lra]. Qed.

Lemma rsum_delta_l (n : nat) (f : nat -> R) (i : nat) :
  (i < n)%nat ->
  rsum n (fun k => (if Nat.eqb i k then 1 else 0) * f k) = f i.
Proof.
  intros I. rewrite (rsum_single n _ i I).
  - rewrite Nat.eqb_refl. lra.
  - intros k K D. destruct (Nat.eqb_spec i k); [congruence | lra].
Qed.

Lemma rsum_delta_r (n : nat) (f : nat -> R) (j : nat) :
  (j < n)%nat ->
  rsum n (fun k => f k * (if Nat.eqb k j then 1 else 0)) = f j.
Proof.
  intros J. rewrite (rsum_single n _ j J).
  - rewrite Nat.eqb_refl. lra.
  - intros k K D. destruct (Nat.eqb_spec k j); [congruence | lra].
Qed.

Lemma rsum_nonzero_term (n : nat) (f : nat -> R) :
  rsum n f <> 0 -> exists k, (k < n)%nat /\ f k <> 0.
Proof.
  induction n as [|n IH]; intros S; simpl in S; [contradiction S; reflexivity|].
  destruct (Req_dec_T (f n) 0) as [Z|Z].
  - destruct IH as (k & K & Pk); [rewrite Z in S; intros E; apply S; lra|].
    exists k. split; [lia | exact Pk].
  - exists n. split; [lia | exact Z].
Qed.

Section Geometric.

Variables (n : nat) (M : Tensor2).
Hypothesis SqM : square n M.

Local Abbreviation I_M := (tsub (tf_eye n) M).
Local Abbreviation G k := (geometric n M k).
Local Abbreviation P k := (matrix_power M k).

Lemma geometric_shape (k : nat) : square n (G k).
Proof. destruct k; split; reflexivity. Qed.

(** [M * Y] for a [Y] that is [G - I + P] inside the shape. *)
Lemma matmul_affine (g p y : nat -> R) (i j : nat) :
  (j < n)%nat ->
  (forall l, (l < n)%nat ->
     y l = g l - (if Nat.eqb l j then 1 else 0) + p l) ->
  rsum n (fun l => entry M i l * y l)
  = rsum n (fun l => entry M i l * g l) - entry M i j
    + rsum n (fun l => entry M i l * p l).
Proof.
  intros J E.
  rewrite (rsum_ext n _ (fun l =>
             entry M i l * g l
             - entry M i l * (if Nat.eqb l j then 1 else 0)
             + entry M i l * p l)).
  2:{ intros l L. rewrite (E l L). ring. }
  rewrite rsum_plus, rsum_minus, rsum_delta_r by exact J. reflexivity.
Qed.

Lemma matmul_I_M_l (Y : Tensor2) (i j : nat) :
  (i < n)%nat ->
  entry (tf_matmul I_M Y) i j
  = entry Y i j - rsum n (fun l => entry M i l * entry Y l j).
Proof.
  intros I. simpl.
  rewrite (rsum_ext n _ (fun l =>
             (if Nat.eqb i l then 1 else 0) * entry Y l j
             - entry M i l * entry Y l j)) by (intros; ring).
  rewrite rsum_minus, rsum_delta_l by exact I. reflexivity.
Qed.

Lemma geometric_succ_entry (k : nat) (i j : nat) :
  entry (G (S k)) i j
  = (if Nat.eqb i j then 1 else 0)
    + rsum n (fun l => entry M i l * entry (G k) l j).
Proof. destruct SqM as [_ Hc]. simpl. rewrite Hc. reflexivity. Qed.

Lemma matrix_power_succ_entry (k : nat) (i j : nat) :
  entry (P (S k)) i j = rsum n (fun l => entry M i l * entry (P k) l j).
Proof. destruct SqM as [_ Hc]. simpl. rewrite Hc. reflexivity. Qed.

(** [(I - M) * (I + M + ... + M^(k-1)) = I - M^k]. *)
Lemma geometric_right (k : nat) : forall i j,
  (i < n)%nat -> (j < n)%nat ->
  entry (tf_matmul I_M (G k)) i j
  = (if Nat.eqb i j then 1 else 0) - entry (P k) i j.
Proof.
  induction k as [|k IH]; intros i j I J.
  - rewrite matmul_I_M_l by exact I. simpl.
    rewrite rsum_zero by (intros; lra). lra.
  - rewrite matmul_I_M_l by exact I.
    rewrite (rsum_ext n _ (fun l =>
               entry M i l * (if Nat.eqb l j then 1 else 0)
               + entry M i l
                 * rsum n (fun l' => entry M l l' * entry (G k) l' j))).
    2:{ intros l L. rewrite geometric_succ_entry. ring. }
    rewrite rsum_plus, rsum_delta_r by exact J.
    pose proof (matmul_affine
                  (fun l => entry (G k) l j) (fun l => entry (P k) l j)
                  (fun l => rsum n (fun l' => entry M l l' * entry (G k) l' j))
                  i j J) as E.
    cbv beta in E. rewrite E.
    + rewrite geometric_succ_entry, matrix_power_succ_entry. lra.
    + intros l L. specialize (IH l j L J).
      rewrite matmul_I_M_l in IH by exact L. lra.
Qed.

Lemma matmul_I_M_r (Y : Tensor2) (i j : nat) :
  cols Y = n -> (j < n)%nat ->
  entry (tf_matmul Y I_M) i j
  = entry Y i j - rsum n (fun l => entry Y i l * entry M l j).
Proof.
  intros C J. simpl. rewrite C.
  rewrite (rsum_ext n _ (fun l =>
             entry Y i l * (if Nat.eqb l j then 1 else 0)
             - entry Y i l * entry M l j)) by (intros; ring).
  rewrite rsum_minus, rsum_delta_r by exact J. reflexivity.
Qed.

(** [(I + M + ... + M^(k-1)) * (I - M) = I - M^k]. *)
Lemma geometric_left (k : nat) : forall i j,
  (i < n)%nat -> (j < n)%nat ->
  entry (tf_matmul (G k) I_M) i j
  = (if Nat.eqb i j then 1 else 0) - entry (P k) i j.
Proof.
  induction k as [|k IH]; intros i j I J.
  - rewrite matmul_I_M_r by (reflexivity || exact J). simpl.
    rewrite rsum_zero by (intros; lra). lra.
  - destruct (geometric_shape k) as [_ Gc].
    rewrite matmul_I_M_r by (reflexivity || exact J).
    rewrite (rsum_ext n _ (fun l =>
               (if Nat.eqb i l then 1 else 0) * entry M l j
               + rsum n (fun l' => entry M i l' * entry (G k) l' l)
                 * entry M l j)).
    2:{ intros l L. rewrite geometric_succ_entry. ring. }
    rewrite rsum_plus, rsum_delta_l by exact I.
    assert (A : rsum n (fun l =>
                  rsum n (fun l' => entry M i l' * entry (G k) l' l)
                  * entry M l j)
                = rsum n (fun l' =>
                    entry M i l'
                    * rsum n (fun l => entry (G k) l' l * entry M l j))).
    { rewrite (rsum_ext n _ (fun l => rsum n
                 (fun l' => entry M i l' * entry (G k) l' l * entry M l j))).
      2:{ intros l _. rewrite <- rsum_scal_r. reflexivity. }
      rewrite rsum_swap. apply rsum_ext. intros l' _.
      rewrite <- rsum_scal_l. apply rsum_ext. intros l _. ring. }
    rewrite A.
    pose proof (matmul_affine
                  (fun l => entry (G k) l j) (fun l => entry (P k) l j)
                  (fun l' => rsum n (fun l => entry (G k) l' l * entry M l j))
                  i j J) as E.
    cbv beta in E. rewrite E.
    + rewrite geometric_succ_entry, matrix_power_succ_entry. lra.
    + intros l L. specialize (IH l j L J).
      rewrite matmul_I_M_r in IH by assumption. lra.
Qed.

(** When [M^n] vanishes inside the shape, the partial sum of [n] terms is
    the inverse of [I - M]. *)
Lemma nilpotent_inverse :
  (forall i j, (i < n)%nat -> (j < n)%nat -> entry (P n) i j = 0) ->
  is_inverse I_M (G n).
Proof.
  intros Z. destruct (geometric_shape n) as [Gr Gc].
  unfold is_inverse. cbn [rows cols tsub tf_eye].
  split; [reflexivity|]. split; [exact Gr|]. split; [exact Gc|]. split.
  - split; [exact Gr|]. split; [reflexivity|].
    cbn [rows cols tf_matmul tsub tf_eye]. intros i j I J.
    rewrite Gr in I. rewrite geometric_left, Z by assumption.
    simpl. lra.
  - split; [reflexivity|]. split; [exact Gc|].
    cbn [rows cols tf_matmul tsub tf_eye]. intros i j I J.
    rewrite Gc in J. rewrite geometric_right, Z by assumption.
    simpl. lra.
Qed.

(** A non-zero entry of [M^(k+1)] comes from a walk through [k]
    intermediate nodes of the graph of [M]. *)
Lemma power_entry_walk (k : nat) : forall i j,
  (i < n)%nat -> (j < n)%nat -> entry (P (S k)) i j <> 0 ->
  exists l, List.length l = k /\ Forall (fun v => (v < n)%nat) l /\
            walk M i l j.
Proof.
  induction k as [|k IH]; intros i j I J NZ;
    rewrite matrix_power_succ_entry in NZ;
    destruct (rsum_nonzero_term n _ NZ) as (l & L & T).
  - exists []. split; [reflexivity|]. split; [constructor|].
    simpl in T |- *. destruct (Nat.eqb_spec l j) as [->|D].
    + intros E. apply T. unfold edge in E. rewrite E. lra.
    + exfalso. apply T. lra.
  - assert (Ml : entry M i l <> 0) by (intros E; apply T; rewrite E; lra).
    assert (Pl : entry (P (S k)) l j <> 0) by (intros E; apply T; rewrite E; lra).
    destruct (IH l j L J Pl) as (w & Len & F & W).
    exists (l :: w). split; [simpl; congruence|].
    split; [constructor; assumption|]. split; assumption.
Qed.

End Geometric.

Lemma walk_transpose (A : Tensor2) (l : list nat) : forall (i j : nat),
  walk (K_transpose A) i l j -> walk A j (rev l) i.
Proof.
  induction l as [|k l IH]; intros i j W; simpl in W |- *.
  - exact W.
  - destruct W as [E W]. apply walk_concat; [apply IH, W | exact E].
Qed.

Lemma acyclic_transpose (A : Tensor2) :
  rows A = cols A -> acyclic A -> acyclic (K_transpose A).
Proof.
  intros Sq Acy v l F W. apply (Acy v (rev l)).
  - simpl in F. rewrite <- Sq in F.
    inversion F as [|? ? V Fl]; subst. constructor; [exact V|].
    apply Forall_rev, Fl.
  - apply walk_transpose, W.
Qed.

(** A walk through at least as many nodes as the graph has visits a node
    twice, and so contains a closed walk. *)
Lemma long_walk_closed (B : Tensor2) (i j : nat) (l : list nat) :
  rows B = cols B ->
  Forall (fun k => (k < rows B)%nat) (i :: l) -> (j < rows B)%nat ->
  (rows B <= S (List.length l))%nat ->
  walk B i l j ->
  exists v l', Forall (fun k => (k < rows B)%nat) (v :: l') /\ walk B v l' v.
Proof.
  intros Sq F J Len W.
  assert (Sub : forall a l2, In a (i :: l) -> incl l2 l ->
                Forall (fun k => (k < rows B)%nat) (a :: l2)).
  { intros a l2 Ia Inc. rewrite Forall_forall in F. apply Forall_forall.
    intros k [<-|K]; apply F; [exact Ia | right; apply Inc, K]. }
  destruct (in_dec Nat.eq_dec j (i :: l)) as [Ij|Nj].
  - destruct (in_split j (i :: l) Ij) as (l1 & l2 & E).
    exists j, l2. destruct l1 as [|x l1]; simpl in E; injection E as -> ->.
    + split; [apply Sub; [left; reflexivity | apply incl_refl] | exact W].
    + destruct (walk_app B l1 l2 x j j W) as [_ W2].
      split; [|exact W2]. apply Sub.
      * right. apply in_or_app. right. left. reflexivity.
      * intros k K. apply in_or_app. right. right. exact K.
  - destruct (ListDec.NoDup_dec Nat.eq_dec (i :: l)) as [D|N].
    + exfalso.
      assert (L : (List.length (j :: i :: l) <= rows B)%nat).
      { apply (cycle_length B Sq); constructor; assumption. }
      simpl in L. lia.
    + destruct (repetition_split _ N) as (a & l1 & l2 & l3 & E).
      exists a, l2. destruct l1 as [|x l1]; simpl in E; injection E as -> ->.
      * destruct (walk_app B l2 l3 a a j W) as [W2 _].
        split; [|exact W2]. apply Sub; [left; reflexivity|].
        intros k K. apply in_or_app. left. exact K.
      * destruct (walk_app B l1 (l2 ++ a :: l3) x a j W) as [_ W'].
        destruct (walk_app B l2 l3 a a j W') as [W2 _].
        split; [|exact W2]. apply Sub.
        -- right. apply in_or_app. right. left. reflexivity.
        -- intros k K. apply in_or_app. right. right.
           apply in_or_app. left. exact K.
Qed.

(** The graph of a matrix without closed walks has only walks shorter than
    its number of nodes: the n-th power vanishes. *)
Lemma acyclic_nilpotent (B : Tensor2) :
  rows B = cols B -> acyclic B ->
  forall i j, (i < rows B)%nat -> (j < rows B)%nat ->
              entry (matrix_power B (rows B)) i j = 0.
Proof.
  intros Sq Acy i j I J.
  destruct (Req_dec_T (entry (matrix_power B (rows B)) i j) 0) as [Z|NZ];
    [exact Z | exfalso].
  assert (E : rows B = S (rows B - 1)) by lia.
  rewrite E in NZ.
  destruct (power_entry_walk (rows B) B (conj eq_refl (eq_sym Sq))
              (rows B - 1) i j I J NZ) as (l & Len & F & W).
  destruct (long_walk_closed B i j l Sq) as (v & l' & F' & W');
    [constructor; assumption | exact J | lia | exact W |].
  exact (Acy v l' F' W').
Qed.

Lemma acyclic_invertible (A : Tensor2) :
  rows A = cols A -> acyclic A ->
  exists N, is_inverse (tsub (tf_eye (rows A)) (K_transpose A)) N.
Proof.
  intros Sq Acy. exists (geometric (rows A) (K_transpose A) (rows A)).
  apply nilpotent_inverse; [split; simpl; congruence|].
  pose proof (acyclic_nilpotent (K_transpose A)) as Z.
  simpl rows in Z. simpl cols in Z. rewrite <- Sq in Z.
  apply Z; [reflexivity|].
  apply acyclic_transpose; assumption.
Qed.

(** Over exact arithmetic:
    when the acyclicity measure of a square matrix A is zero (for a
    positive alpha), [I - A^T] is invertible: the inverse transform on any
    layers followed by A succeeds and returns one tensor per layer. *)
Theorem zero_constraint_inverse_succeeds
  (A : Tensor2) (alpha : R) (layers : list Tensor2) :
  rows A = cols A -> 0 < alpha -> DAG_constraint A alpha = 0 ->
  exists outputs,
    InvTransMultA.call (layers ++ [A]) = Ok outputs /\
    List.length outputs = List.length layers.
Proof.
  intros Sq Pa Z.
  assert (Acy : acyclic A) by (apply (DAG_constraint_eq_0_iff A alpha); assumption).
  destruct (InvTransMultA_call_app layers A (acyclic_invertible A Sq Acy))
    as (N & _ & ->).
  eexists. split; [reflexivity|]. apply length_map.
Qed.

Lemma zero_constraint_inverse_succeeds_witness :
  exists outputs,
    InvTransMultA.call ([of_rows 3 1 [[1]; [2]; [3]]] ++ [upper_3])
    = Ok outputs /\
    List.length outputs = List.length [of_rows 3 1 [[1]; [2]; [3]]].
Proof.
  apply (zero_constraint_inverse_succeeds upper_3 (1 / 3));
    [reflexivity | lra |].
  apply (DAG_constraint_triangular true); [reflexivity|].
  exact upper_3_strictly_upper.
Defined.

Lemma InvTransMultA_call_singular (layers : list Tensor2) (A : Tensor2) :
  ~ (exists N, is_inverse (tsub (tf_eye (rows A)) (K_transpose A)) N) ->
  InvTransMultA.call (layers ++ [A]) = Raise InvalidArgumentError.
Proof.
  intros E. unfold InvTransMultA.call.
  rewrite length_app. simpl List.length.
  replace (List.length layers + 1 - 1)%nat with (List.length layers) by lia.
  rewrite nth_error_app2, Nat.sub_diag by lia. simpl.
  rewrite (tf_linalg_inv_singular _ E). reflexivity.
Qed.

(** Over exact arithmetic, for tensors of matching shapes:
    the outcomes of the inverse transform.  On the empty list it
    raises IndexError; on layers followed by A it raises
    InvalidArgumentError when [I - A^T] has no inverse, whatever the
    layers, and otherwise returns one tensor per layer; a list that holds
    only an invertible A gives the empty list. *)
Theorem InvTransMultA_call_outcomes :
  InvTransMultA.call [] = Raise IndexError /\
  (forall layers A,
     ~ (exists N, is_inverse (tsub (tf_eye (rows A)) (K_transpose A)) N) ->
     InvTransMultA.call (layers ++ [A]) = Raise InvalidArgumentError) /\
  (forall layers A,
     (exists N, is_inverse (tsub (tf_eye (rows A)) (K_transpose A)) N) ->
     exists outputs,
       InvTransMultA.call (layers ++ [A]) = Ok outputs /\
       List.length outputs = List.length layers) /\
  (forall A,
     (exists N, is_inverse (tsub (tf_eye (rows A)) (K_transpose A)) N) ->
     InvTransMultA.call [A] = Ok []).
Proof.
  split; [reflexivity|]. split; [exact InvTransMultA_call_singular|]. split.
  - intros layers A E.
    destruct (InvTransMultA_call_app layers A E) as (N & _ & ->).
    eexists. split; [reflexivity | apply length_map].
  - intros A E.
    destruct (InvTransMultA_call_app [] A E) as (N & _ & C). exact C.
Qed.

(** X20: a node whose only outgoing edge is a self-loop of weight 1 makes
    [I - A^T] singular (its column for that node is zero): the inverse
    transform raises InvalidArgumentError on every list that ends with
    such an A. *)
Theorem unit_self_loop_raises (A : Tensor2) (i : nat) (layers : list Tensor2) :
  (i < rows A)%nat -> entry A i i = 1 ->
  (forall j, (j < rows A)%nat -> j <> i -> entry A i j = 0) ->
  InvTransMultA.call (layers ++ [A]) = Raise InvalidArgumentError.
Proof.
  intros I Loop Only. apply InvTransMultA_call_singular.
  intros (N & _ & Nr & Nc & (_ & _ & Left) & _).
  cbn [rows cols tsub tf_eye tf_matmul] in Nr, Nc, Left.
  specialize (Left i i). rewrite Nr in Left. specialize (Left I I).
  cbn [entry tsub tf_eye tf_matmul K_transpose cols] in Left.
  rewrite Nat.eqb_refl in Left.
  rewrite rsum_zero in Left; [lra|].
  intros k K. rewrite Nc in K.
  destruct (Nat.eqb_spec k i) as [->|D].
  - rewrite Loop. lra.
  - rewrite (Only k K D). lra.
Qed.

Lemma unit_self_loop_raises_witness :
  InvTransMultA.call ([column_2] ++ [of_rows 2 2 [[1; 0]; [4; 0]]])
  = Raise InvalidArgumentError.
Proof.
  apply (unit_self_loop_raises (of_rows 2 2 [[1; 0]; [4; 0]]) 0 [column_2]).
  - simpl. lia.
  - reflexivity.
  - intros j J D. simpl in J.
    destruct j as [|[|j]]; [contradiction | reflexivity | lia].
Defined.

Lemma InvTransMultA_call_inversion (layers outputs : list Tensor2) (A : Tensor2) :
  InvTransMultA.call (layers ++ [A]) = Ok outputs ->
  exists N,
    is_inverse (tsub (tf_eye (rows A)) (K_transpose A)) N /\
    outputs = map (fun layer => tf_matmul N layer) layers.
Proof.
  intros C.
  destruct (excluded_middle_informative
              (exists N, is_inverse (tsub (tf_eye (rows A)) (K_transpose A)) N))
    as [E|E].
  - destruct (InvTransMultA_call_app layers A E) as (N & IN & C').
    exists N. split; [exact IN|]. congruence.
  - rewrite (InvTransMultA_call_singular layers A E) in C. discriminate C.
Qed.

Lemma inverse_cancel_r (M N X : Tensor2) :
  is_inverse M N -> rows X = rows M ->
  teq (tf_matmul M (tf_matmul N X)) X.
Proof.
  intros (Sq & Nr & Nc & _ & Right) RX.
  apply teq_trans with (tf_matmul (tf_matmul M N) X);
    [apply teq_sym, matmul_assoc|].
  apply teq_trans with (tf_matmul (tf_eye (rows M)) X);
    [|apply matmul_eye_l, RX].
  apply matmul_teq; [simpl; congruence | exact Right | apply teq_refl].
Qed.

(** Over exact arithmetic:
    the round trip in the other order.  When the inverse transform of
    tensors T (each with n_nodes rows) followed by the layer's A returns,
    the forward transform of what it returned gives the tensors of T
    back. *)
Theorem forward_inverse_roundtrip (self : TransMultA.t)
  (T outputs : list Tensor2) :
  Forall (fun X => rows X = rows (value (TransMultA.A self))) T ->
  InvTransMultA.call (T ++ [value (TransMultA.A self)]) = Ok outputs ->
  Forall2 teq (fst (TransMultA.call self outputs)) T /\
  snd (TransMultA.call self outputs) = value (TransMultA.A self).
Proof.
  intros Sh C. split; [|reflexivity].
  destruct (InvTransMultA_call_inversion T outputs _ C) as (N & IN & ->).
  clear C. unfold TransMultA.call. cbn [fst]. rewrite map_map.
  induction Sh as [|X T RX Sh IH]; constructor; [|exact IH].
  apply inverse_cancel_r; [exact IN | exact RX].
Qed.

Lemma forward_inverse_roundtrip_witness :
  exists outputs,
    InvTransMultA.call ([column_2] ++ [value (TransMultA.A edge_layer_2)])
    = Ok outputs /\
    Forall2 teq (fst (TransMultA.call edge_layer_2 outputs)) [column_2].
Proof.
  destruct (InvTransMultA_call_app [column_2]
              (value (TransMultA.A edge_layer_2))
              (ex_intro _ edge_inverse_2 edge_inverse_2_is_inverse))
    as (N & _ & C).
  eexists. split; [exact C|].
  apply (forward_inverse_roundtrip edge_layer_2 [column_2] _);
    [repeat constructor | exact C].
Defined.

(** Over exact arithmetic, for tensors of matching shapes:
    the forward transform returns one tensor per input tensor (none on
    the empty list) together with its weight A, unchanged, and it is linear:
    the transform of [X + c * Y] is the transform of X plus c times the
    transform of Y. *)
Theorem TransMultA_call_linear (self : TransMultA.t)
  (x : list Tensor2) (X Y : Tensor2) (c : R) :
  List.length (fst (TransMultA.call self x)) = List.length x /\
  snd (TransMultA.call self x) = value (TransMultA.A self) /\
  fst (TransMultA.call self []) = [] /\
  forall X' Y' XY',
    fst (TransMultA.call self [X; Y; tadd X (scale c Y)]) = [X'; Y'; XY'] ->
    rows XY' = rows X' /\ cols XY' = cols X' /\
    forall i j, entry XY' i j = entry X' i j + c * entry Y' i j.
Proof.
  split; [apply length_map|]. split; [reflexivity|]. split; [reflexivity|].
  intros X' Y' XY' E. cbn in E. injection E as <- <- <-.
  split; [reflexivity|]. split; [reflexivity|].
  intros i j. cbn [entry tf_matmul tadd scale tsub tf_eye cols rows].
  rewrite <- rsum_scal_l, <- rsum_plus. apply rsum_ext. intros k _. ring.
Qed.

(** ** The assembled model *)

Lemma decoder_cases (mu_l disp_l pi_l : Dense.t) (z A : Tensor2) :
  (~ (exists N, is_inverse (tsub (tf_eye (rows A)) (K_transpose A)) N) ->
   decoder mu_l disp_l pi_l (z, A) = Raise InvalidArgumentError) /\
  ((exists N, is_inverse (tsub (tf_eye (rows A)) (K_transpose A)) N) ->
   exists mu disp pi,
     decoder mu_l disp_l pi_l (z, A) = Ok [mu; disp; pi] /\
     forall i j,
       1e-5 <= entry mu i j <= 1e6 /\
       1e-4 <= entry disp i j <= 1e4 /\
       0 < entry pi i j < 1).
Proof.
  split.
  - intros E. unfold decoder.
    pose proof (InvTransMultA_call_singular [z] A E) as C.
    cbn [app] in C. rewrite C. reflexivity.
  - intros E. unfold decoder.
    destruct (InvTransMultA_call_app [z] A E) as (N & _ & C).
    cbn [app] in C. rewrite C. cbn [rbind map].
    do 3 eexists. split; [reflexivity|].
    intros i j. cbn [entry Dense.call].
    split; [apply tf_clip_by_value_range; lra|].
    split; [apply tf_clip_by_value_range; lra|].
    apply sigmoid_range.
Qed.

(** Over exact arithmetic, for tensors of matching shapes:
    the decoder raises InvalidArgumentError when [I - A^T] has no
    inverse and returns otherwise; what it returns are three tensors
    (mean, dispersion, dropout probability) whose every entry is in range:
    the mean in [1e-5, 1e6], the dispersion in [1e-4, 1e4], the
    probability strictly between 0 and 1. *)
Theorem decoder_outcomes (mu_l disp_l pi_l : Dense.t) (z A : Tensor2) :
  (~ (exists N, is_inverse (tsub (tf_eye (rows A)) (K_transpose A)) N) ->
   decoder mu_l disp_l pi_l (z, A) = Raise InvalidArgumentError) /\
  ((exists N, is_inverse (tsub (tf_eye (rows A)) (K_transpose A)) N) ->
   exists mu disp pi,
     decoder mu_l disp_l pi_l (z, A) = Ok [mu; disp; pi] /\
     forall i j,
       1e-5 <= entry mu i j <= 1e6 /\
       1e-4 <= entry disp i j <= 1e4 /\
       0 < entry pi i j < 1).
Proof. exact (decoder_cases mu_l disp_l pi_l z A). Qed.

Lemma encoder_value (zm_l zlv_l : Dense.t) (trans : TransMultA.t)
  (sample : SampleLayer.t) (count_input epsilon : Tensor2) :
  exists z_mean z_log_var z,
    encoder zm_l zlv_l trans sample count_input epsilon
    = Ok (z_mean, z_log_var, z, value (TransMultA.A trans)) /\
    z = SampleLayer.sampling (z_mean, z_log_var) epsilon.
Proof. do 3 eexists. split; reflexivity. Qed.

Lemma autoencoder_cases (m : AutoencoderLayers)
  (count_input epsilon : Tensor2) (losses : list Tensor1) :
  let A := value (TransMultA.A (trans_layer m)) in
  (~ (exists N, is_inverse (tsub (tf_eye (rows A)) (K_transpose A)) N) ->
   autoencoder m count_input epsilon losses = Raise InvalidArgumentError) /\
  ((exists N, is_inverse (tsub (tf_eye (rows A)) (K_transpose A)) N) ->
   exists mu disp pi kl,
     autoencoder m count_input epsilon losses
     = Ok ([mu; disp; pi],
           (losses ++
            [kl;
             vneg (K_mean_last
                     (ReconstructionLossLayer.rl (reconstruction_layer m)
                        count_input [mu; disp; pi]
                        (ReconstructionLossLayer.eps (reconstruction_layer m))));
             ConstraintLossLayer.cl (constraint_layer m)
               (value (ConstraintLossLayer.lambda_A (constraint_layer m)))
               (value (ConstraintLossLayer.penalty_A (constraint_layer m)))
               A (ConstraintLossLayer.alpha (constraint_layer m))])%list)).
Proof.
  intros A.
  destruct (encoder_value (z_mean_layer m) (z_log_var_layer m) (trans_layer m)
              (sample_layer m) count_input epsilon)
    as (z_mean & z_log_var & z & E & _).
  fold A in E. unfold autoencoder. rewrite E. cbn [rbind].
  cbn [KLDivergenceLayer.call bind add_loss ret].
  destruct (decoder_cases (mu_layer m) (disp_layer m) (pi_layer m) z A)
    as [Sing Reg].
  split.
  - intros S. rewrite (Sing S). reflexivity.
  - intros S. destruct (Reg S) as (mu & disp & pi & D & _).
    rewrite D. cbn [rbind].
    do 4 eexists. unfold ReconstructionLossLayer.call, ConstraintLossLayer.call.
    cbn [bind add_loss ret fst snd].
    rewrite <- !app_assoc. reflexivity.
Qed.

(** Over exact arithmetic, for tensors of matching shapes:
    one forward pass of the autoencoder either raises
    InvalidArgumentError, when [I - A^T] has no inverse for the adjacency
    weight A, or returns; when it returns, the final outputs are the three
    tensors of the decoder and exactly three losses have been registered
    after those already there: the KL loss, the reconstruction loss of
    those three tensors against the input, and the constraint loss of A,
    in this order. *)
Theorem autoencoder_outcomes (m : AutoencoderLayers)
  (count_input epsilon : Tensor2) (losses : list Tensor1) :
  let A := value (TransMultA.A (trans_layer m)) in
  (~ (exists N, is_inverse (tsub (tf_eye (rows A)) (K_transpose A)) N) ->
   autoencoder m count_input epsilon losses = Raise InvalidArgumentError) /\
  ((exists N, is_inverse (tsub (tf_eye (rows A)) (K_transpose A)) N) ->
   exists mu disp pi kl,
     autoencoder m count_input epsilon losses
     = Ok ([mu; disp; pi],
           (losses ++
            [kl;
             vneg (K_mean_last
                     (ReconstructionLossLayer.rl (reconstruction_layer m)
                        count_input [mu; disp; pi]
                        (ReconstructionLossLayer.eps (reconstruction_layer m))));
             ConstraintLossLayer.cl (constraint_layer m)
               (value (ConstraintLossLayer.lambda_A (constraint_layer m)))
               (value (ConstraintLossLayer.penalty_A (constraint_layer m)))
               A (ConstraintLossLayer.alpha (constraint_layer m))])%list)).
Proof. exact (autoencoder_cases m count_input epsilon losses). Qed.

(** Over exact arithmetic, for tensors of matching shapes:
    when the constraint layer uses [LagrangianLoss] with a positive
    alpha and the acyclicity measure of the square adjacency weight A is
    zero, a forward pass of the autoencoder never raises, and the constraint
    loss it registers, the last one, has one entry per node, all zero. *)
Theorem acyclic_autoencoder_succeeds (m : AutoencoderLayers)
  (count_input epsilon : Tensor2) (losses : list Tensor1) :
  let A := value (TransMultA.A (trans_layer m)) in
  rows A = cols A ->
  0 < ConstraintLossLayer.alpha (constraint_layer m) ->
  ConstraintLossLayer.cl (constraint_layer m) = LagrangianLoss ->
  DAG_constraint A (ConstraintLossLayer.alpha (constraint_layer m)) = 0 ->
  exists out kl rec con,
    autoencoder m count_input epsilon losses
    = Ok (out, (losses ++ [kl; rec; con])%list) /\
    len con = rows A /\
    forall i, item con i = 0.
Proof.
  intros A Sq Pa Cl Z.
  assert (Acy : acyclic A)
    by (apply (DAG_constraint_eq_0_iff A _ Sq Pa); exact Z).
  destruct (autoencoder_cases m count_input epsilon losses) as [_ Reg].
  destruct (Reg (acyclic_invertible A Sq Acy)) as (mu & disp & pi & kl & E).
  do 4 eexists. split; [exact E|].
  rewrite Cl. split; [reflexivity|].
  intros i. cbn [item LagrangianLoss]. fold A. rewrite Z. lra.
Qed.

Lemma acyclic_autoencoder_succeeds_witness :
  exists out kl rec con,
    autoencoder built_layers_2 column_2 column_2 []
    = Ok (out, ([] ++ [kl; rec; con])%list) /\
    len con = rows (value (TransMultA.A (trans_layer built_layers_2))) /\
    forall i, item con i = 0.
Proof.
  apply (acyclic_autoencoder_succeeds built_layers_2 column_2 column_2 []).
  - reflexivity.
  - simpl. lra.
  - reflexivity.
  - apply (DAG_constraint_triangular true); [reflexivity|].
    apply zeros_strictly_upper.
Defined.

(** Over exact arithmetic:
    the structural round trip inside the model.  With zero noise and
    an invertible [I - A^T], for a batch with n_nodes rows, the tensor that
    the decoder's inverse transform hands to the three heads is the
    encoder's linear projection of the counts onto the latent mean, as it
    was before the forward transform. *)
Theorem encoder_decoder_roundtrip (zm_l zlv_l : Dense.t) (trans : TransMultA.t)
  (sample : SampleLayer.t) (count_input epsilon : Tensor2) :
  let A := value (TransMultA.A trans) in
  rows count_input = rows A ->
  (forall i j, entry epsilon i j = 0) ->
  (exists N, is_inverse (tsub (tf_eye (rows A)) (K_transpose A)) N) ->
  exists z_mean z_log_var z x,
    encoder zm_l zlv_l trans sample count_input epsilon
    = Ok (z_mean, z_log_var, z, A) /\
    InvTransMultA.call [z; A] = Ok [x] /\
    teq x (Dense.call (fun a => a) zm_l count_input).
Proof.
  intros A RC Zero Inv.
  destruct (InvTransMultA_call_app
              [SampleLayer.sampling
                 (tf_matmul (tsub (tf_eye (rows A)) (K_transpose A))
                            (Dense.call (fun a => a) zm_l count_input),
                  tf_matmul (tsub (tf_eye (rows A)) (K_transpose A))
                            (Dense.call (fun a => a) zlv_l count_input))
                 epsilon] A Inv) as (N & IN & C).
  do 4 eexists. split; [reflexivity|]. split; [exact C|].
  apply teq_trans
    with (tf_matmul N
            (tf_matmul (tsub (tf_eye (rows A)) (K_transpose A))
                       (Dense.call (fun a => a) zm_l count_input))).
  - apply matmul_teq.
    + destruct IN as (_ & _ & Nc & _). cbn in Nc |- *. exact Nc.
    + apply teq_refl.
    + repeat split. intros i j _ _. cbn [entry SampleLayer.sampling tadd tf_multiply].
      rewrite Zero. rewrite Rmult_0_r, Rplus_0_r. reflexivity.
  - apply inverse_cancel; [exact IN | exact RC].
Qed.

Lemma encoder_decoder_roundtrip_witness :
  exists z_mean z_log_var z x,
    encoder (dense_1 2 1) (dense_1 (-1) 0) edge_layer_2
            {| SampleLayer.output_dim := 1 |} column_2 (tf_zeros 2 1)
    = Ok (z_mean, z_log_var, z, value (TransMultA.A edge_layer_2)) /\
    InvTransMultA.call [z; value (TransMultA.A edge_layer_2)] = Ok [x] /\
    teq x (Dense.call (fun a => a) (dense_1 2 1) column_2).
Proof.
  apply (encoder_decoder_roundtrip (dense_1 2 1) (dense_1 (-1) 0) edge_layer_2
           {| SampleLayer.output_dim := 1 |} column_2 (tf_zeros 2 1)).
  - reflexivity.
  - reflexivity.
  - exists edge_inverse_2. exact edge_inverse_2_is_inverse.
Defined.

(** ** The acyclicity measure ignores the signs of the weights *)

Lemma iter_square_teq (n : nat) (X Y : Tensor2) (t : nat) :
  square n X -> teq X Y ->
  teq (squarings t X) (squarings t Y).
Proof.
  intros Sq E. induction t as [|t IH]; [exact E|].
  change (teq (tf_matmul (squarings t X) (squarings t X))
              (tf_matmul (squarings t Y) (squarings t Y))).
  apply matmul_teq; try exact IH.
  destruct (iter_square_shape n X t Sq) as [-> ->]. reflexivity.
Qed.

(** X27: [DAG_constraint] depends on the entries of the matrix only through
    their squares: two matrices of the same shape whose entries have the
    same squares inside the shape (for instance A and -A, or A with any
    entries negated) have the same measure. *)
Theorem DAG_constraint_sign_blind (A B : Tensor2) (alpha : R) :
  rows A = rows B ->
  (forall i j, (i < rows A)%nat -> (j < rows A)%nat ->
     entry A i j * entry A i j = entry B i j * entry B i j) ->
  DAG_constraint A alpha = DAG_constraint B alpha.
Proof.
  intros Hr Sqr. unfold DAG_constraint. rewrite <- Hr. f_equal.
  apply trace_teq, (iter_square_teq (rows A)); [split; reflexivity|].
  repeat split. cbn [rows cols entry tadd tf_eye scale tf_multiply].
  intros i j I J. rewrite (Sqr i j I J). reflexivity.
Qed.

Lemma DAG_constraint_sign_blind_witness :
  DAG_constraint two_cycle_2 (1 / 2)
  = DAG_constraint (tneg two_cycle_2) (1 / 2).
Proof.
  apply (DAG_constraint_sign_blind two_cycle_2 (tneg two_cycle_2) (1 / 2)).
  - reflexivity.
  - intros i j _ _. cbn [entry tneg]. ring.
Defined.
